(** * eval.py: the agent-session capture pipeline

    A shallow embedding of [src/eval/eval.py]: the transcript recorder
    ([ConversationTracker]), the final-text derivation of
    [generate_with_sdk], [cleanup_directory], [extract_tagged_sections],
    [write_results] and the working-directory discipline of [main_async].

    Python strings are sequences of Unicode code points; exceptions are
    explicit outcomes; the file system and the engine stream are explicit
    state. *)

From Stdlib Require Import ZArith NArith QArith Ascii String DecimalString.
From stdpp Require Import base list gmap strings.

Local Open Scope nat_scope.
Set Warnings "-register-all".

(** ** Python strings *)

(** A Python [str] is a sequence of code points. *)
Abbreviation char := N (only parsing).
Abbreviation str := (list N) (only parsing).

(** A literal of the source, character by character. *)
Definition pystr (s : string) : str :=
  List.map N_of_ascii (list_ascii_of_string s).

(** [str.isspace] on one code point: the characters [str.strip()] removes. *)
Definition is_space (c : char) : bool :=
  ((9 <=? c) && (c <=? 13) || (28 <=? c) && (c <=? 32)
   || (c =? 133) || (c =? 160) || (c =? 5760)
   || (8192 <=? c) && (c <=? 8202)
   || (c =? 8232) || (c =? 8233) || (c =? 8239) || (c =? 8287)
   || (c =? 12288))%N.

Fixpoint lstrip (s : str) : str :=
  match s with
  | c :: s' => if is_space c then lstrip s' else s
  | [] => []
  end.

Definition rstrip (s : str) : str := rev (lstrip (rev s)).

(** [s.strip()] *)
Definition strip (s : str) : str := rstrip (lstrip s).

(** The newline character of the source's string literals. *)
Definition nl : str := [10%N].

(** Truth value of a string: [if s:] *)
Definition nonempty (s : str) : bool :=
  match s with [] => false | _ => true end.

(** ** [re.search] for the patterns of [extract_tagged_sections]

    Every pattern of the source has the shape [open(.*?)close] with two
    literals and is used with [re.DOTALL], so the dot takes any character.
    The matcher below is the backtracking search of [re] on that shape. *)

(** The literal [p] at the head of [s]; the rest of [s] after it. *)
Fixpoint match_literal (p s : str) : option str :=
  match p, s with
  | [], _ => Some s
  | a :: p', b :: s' => if (a =? b)%N then match_literal p' s' else None
  | _ :: _, [] => None
  end.

(** [(.*?)close] anchored at the head of [s]: the lazy repeat first tries
    to stop, and takes one more character only when [close] does not
    follow.  The value is group 1. *)
Fixpoint match_lazy_until (close s : str) : option str :=
  match match_literal close s with
  | Some _ => Some []
  | None =>
      match s with
      | [] => None
      | c :: s' =>
          match match_lazy_until close s' with
          | Some g => Some (c :: g)
          | None => None
          end
      end
  end.

(** The whole pattern anchored at the head of [s]. *)
Definition match_here (open close s : str) : option str :=
  match match_literal open s with
  | Some rest => match_lazy_until close rest
  | None => None
  end.

(** [re.search]: the leftmost start position at which the pattern matches. *)
Fixpoint re_search (open close s : str) : option str :=
  match match_here open close s with
  | Some g => Some g
  | None =>
      match s with
      | [] => None
      | _ :: s' => re_search open close s'
      end
  end.

(** ** [extract_tagged_sections] *)

Definition open_tag (name : str) : str := pystr "<" ++ name ++ pystr ">".
Definition close_tag (name : str) : str := pystr "</" ++ name ++ pystr ">".

(** [m.group(1).strip() if m else None] for the pattern of one tag. *)
Definition extract_section (name : str) (content : str) : option str :=
  match re_search (open_tag name) (close_tag name) content with
  | Some g => Some (strip g)
  | None => None
  end.

Definition extract_tagged_sections (content : str)
  : option str * option str * option str :=
  let summary := extract_section (pystr "summary") content in
  let feedback := extract_section (pystr "feedback") content in
  let response := extract_section (pystr "response") content in
  (summary, feedback, response).

(** ** Python values, objects and exceptions *)

(** The exception classes the code tells apart: [AttributeError] (what
    [hasattr] and a defaulted [getattr] swallow), [OSError] (what
    [cleanup_directory] catches), [ValueError] (raised by the
    configuration check) and every other subclass of [Exception]. *)
Inductive exn_class := AttributeError | OSError | ValueError | OtherError.

Record exn := mkExn { exn_cls : exn_class; exn_msg : str }.

Inductive outcome (A : Type) : Type :=
| Ok (a : A)
| Raise (e : exn).
Arguments Ok {A} a.
Arguments Raise {A} e.

#[global] Instance outcome_ret : MRet outcome := fun A a => Ok a.
#[global] Instance outcome_bind : MBind outcome := fun A B k m =>
  match m with
  | Ok a => k a
  | Raise e => Raise e
  end.

Definition is_AttributeError (e : exn) : bool :=
  match exn_cls e with AttributeError => true | _ => false end.

Definition is_OSError (e : exn) : bool :=
  match exn_cls e with OSError => true | _ => false end.

(** A value as this program observes it.  The scalars carry their value;
    a list carries its items; a dict is seen only through its truth value
    and through [json.dumps(d, indent=2, default=str)], which may raise;
    an object carries its class name, its truth value, whether it is
    callable and, in [dir()] order, what reading each attribute does.
    The compound values carry their [str()] form ([shown]). Floats,
    functions and bound methods are objects. *)
Inductive pyval : Type :=
| PyNone
| PyBool (b : bool)
| PyInt (z : Z)
| PyStr (s : str)
| PyList (items : list pyval) (shown : str)
| PyDict (filled : bool) (shown : str) (dumped : outcome str)
| PyObj (o : object)
with object : Type :=
| Object (cls : str) (truthy callable : bool) (shown : str)
         (attrs : list (str * getter))
with getter : Type :=
| Returns (v : pyval)
| Throws (e : exn).

Definition obj_cls (o : object) : str := let 'Object c _ _ _ _ := o in c.
Definition obj_truthy (o : object) : bool := let 'Object _ t _ _ _ := o in t.
Definition obj_callable (o : object) : bool := let 'Object _ _ c _ _ := o in c.
Definition obj_shown (o : object) : str := let 'Object _ _ _ s _ := o in s.
Definition obj_attrs (o : object) : list (str * getter) :=
  let 'Object _ _ _ _ a := o in a.

(** [str(n)] for an int *)
Definition dec (z : Z) : str := pystr (NilZero.string_of_int (Z.to_int z)).

(** [str(v)] *)
Definition py_str (v : pyval) : str :=
  match v with
  | PyNone => pystr "None"
  | PyBool true => pystr "True"
  | PyBool false => pystr "False"
  | PyInt z => dec z
  | PyStr s => s
  | PyList _ shown => shown
  | PyDict _ shown _ => shown
  | PyObj o => obj_shown o
  end.

(** [bool(v)] *)
Definition py_truthy (v : pyval) : bool :=
  match v with
  | PyNone => false
  | PyBool b => b
  | PyInt z => negb (z =? 0)%Z
  | PyStr s => nonempty s
  | PyList items _ => match items with [] => false | _ => true end
  | PyDict filled _ _ => filled
  | PyObj o => obj_truthy o
  end.

(** [callable(v)] *)
Definition py_callable (v : pyval) : bool :=
  match v with
  | PyObj o => obj_callable o
  | _ => false
  end.

Fixpoint assoc {A} (name : str) (l : list (str * A)) : option A :=
  match l with
  | [] => None
  | (k, a) :: l' => if decide (k = name) then Some a else assoc name l'
  end.

Definition no_attribute (o : object) (name : str) : exn :=
  mkExn AttributeError
    (pystr "'" ++ obj_cls o ++ pystr "' object has no attribute '" ++ name
     ++ pystr "'").

(** [getattr(o, name)] *)
Definition getattr (o : object) (name : str) : outcome pyval :=
  match assoc name (obj_attrs o) with
  | Some (Returns v) => Ok v
  | Some (Throws e) => Raise e
  | None => Raise (no_attribute o name)
  end.

(** [getattr(o, name, default)]: only [AttributeError] gives the default. *)
Definition getattr_default (o : object) (name : str) (default : pyval)
  : outcome pyval :=
  match getattr o name with
  | Ok v => Ok v
  | Raise e => if is_AttributeError e then Ok default else Raise e
  end.

(** [hasattr(o, name)]: only [AttributeError] gives [False]. *)
Definition hasattr (o : object) (name : str) : outcome bool :=
  match getattr o name with
  | Ok _ => Ok true
  | Raise e => if is_AttributeError e then Ok false else Raise e
  end.

(** [hasattr(v, name)] at the two names the block loop asks for, [text]
    and [id], which no None, bool, int, str, list or dict has. *)
Definition block_hasattr (v : pyval) (name : str) : outcome bool :=
  match v with
  | PyObj o => hasattr o name
  | _ => Ok false
  end.

Definition block_getattr (v : pyval) (name : str) : outcome pyval :=
  match v with
  | PyObj o => getattr o name
  | _ => Raise (mkExn AttributeError (pystr "no attribute '" ++ name ++ pystr "'"))
  end.

(** [v.strip()]: a method of [str]; on any other value of this model the
    attribute lookup fails. *)
Definition call_strip (v : pyval) : outcome str :=
  match v with
  | PyStr s => Ok (strip s)
  | _ => Raise (mkExn AttributeError (pystr "object has no attribute 'strip'"))
  end.

(** ** [ConversationTracker] *)

Record ConversationTracker := mkTracker { full_conversation : list str }.

(** [attr_name.startswith('_')] *)
Definition is_private (attr_name : str) : bool :=
  match attr_name with
  | c :: _ => (c =? 95)%N
  | [] => false
  end.

(** One line of the list branch: [f"  [{i}]: {str(item)}\n"] *)
Definition render_item (i : nat) (item : pyval) : str :=
  pystr "  [" ++ dec (Z.of_nat i) ++ pystr "]: " ++ py_str item ++ nl.

(** The text the [try] body adds to the entry for a value that was read.
    The scalar branch and the last branch both print [str(attr_value)]. *)
Definition render_value (attr_name : str) (attr_value : pyval) : outcome str :=
  match attr_value with
  | PyNone => Ok []
  | PyList items _ =>
      Ok (attr_name ++ pystr ": [" ++ dec (Z.of_nat (length items))
          ++ pystr " items]" ++ nl
          ++ concat (imap render_item items))
  | PyDict _ _ dumped =>
      d ← dumped;
      Ok (attr_name ++ pystr ":" ++ nl ++ d
          ++ nl)
  | _ =>
      Ok (attr_name ++ pystr ": " ++ py_str attr_value ++ nl)
  end.

(** The [except Exception as e] line. *)
Definition render_error (attr_name : str) (e : exn) : str :=
  attr_name ++ pystr ": <error accessing: " ++ exn_msg e ++ pystr ">"
  ++ nl.

(** The loop over [dir(message)].  The guard of line 42 reads the attribute
    with a default, outside the [try]; the [try] body reads it again. *)
Fixpoint render_attrs (message : object) (names : list str)
    (transcript_entry : str) : outcome str :=
  match names with
  | [] => Ok transcript_entry
  | attr_name :: rest =>
      if is_private attr_name then render_attrs message rest transcript_entry
      else
        probe ← getattr_default message attr_name PyNone;
        if py_callable probe then render_attrs message rest transcript_entry
        else
          match getattr message attr_name ≫= render_value attr_name with
          | Ok text => render_attrs message rest (transcript_entry ++ text)
          | Raise e =>
              render_attrs message rest
                (transcript_entry ++ render_error attr_name e)
          end
  end.

Definition entry_header (message_count : nat) (message : object) : str :=
  pystr "=== Message " ++ dec (Z.of_nat message_count) ++ pystr ": "
  ++ obj_cls message ++ pystr " ===" ++ nl.

Definition entry_footer : str :=
  nl ++ replicate 80 61%N
  ++ nl ++ nl.

(** The rendered entry, before it is appended. *)
Definition render_entry (message_count : nat) (message : object) : outcome str :=
  body ← render_attrs message (obj_attrs message).*1
          (entry_header message_count message);
  Ok (body ++ entry_footer).

Definition add_message_to_transcript (self : ConversationTracker)
    (message_count : nat) (message : object) : outcome ConversationTracker :=
  transcript_entry ← render_entry message_count message;
  Ok (mkTracker (full_conversation self ++ [transcript_entry])).

Definition get_transcript (self : ConversationTracker) : str :=
  concat (full_conversation self).

(** ** [generate_with_sdk]: consuming the response stream *)

(** The locals of the receive loop, with the tracker they fill. *)
Record loop_state := mkLoop {
  generated_content : str;
  final_result_content : str;
  message_count : nat;
  tracker : ConversationTracker
}.

Definition initial_state : loop_state :=
  mkLoop [] [] 0 (mkTracker []).

(** [hasattr(o, name) and o.name], as a truth value: the attribute is read
    a second time only when [hasattr] found it. *)
Definition has_truthy (o : object) (name : str) : outcome bool :=
  h ← hasattr o name;
  if h : bool then (v ← getattr o name; Ok (py_truthy v)) else Ok false.

(** One turn of [for block in message.content]. *)
Definition scan_block (generated : str) (block : pyval) : outcome str :=
  has_text ← block_hasattr block (pystr "text");
  if has_text : bool then
    (has_id ← block_hasattr block (pystr "id");
     if negb has_id then
       (text ← block_getattr block (pystr "text");
        text_content ← call_strip text;
        if nonempty text_content then Ok (generated ++ text_content ++ nl)
        else Ok generated)
     else Ok generated)
  else Ok generated.

Fixpoint scan_blocks (generated : str) (blocks : list pyval) : outcome str :=
  match blocks with
  | [] => Ok generated
  | block :: rest =>
      generated' ← scan_block generated block;
      scan_blocks generated' rest
  end.

(** Lines 171-185: the [if]/[elif] on the message just recorded.  The
    result is the new pair ([generated_content], [final_result_content]). *)
Definition inspect_message (generated final : str) (message : object)
  : outcome (str * str) :=
  has_result ← has_truthy message (pystr "result");
  if has_result : bool then
    (result ← getattr message (pystr "result");
     let result_text := strip (py_str result) in
     if nonempty result_text then Ok (generated, result_text)
     else Ok (generated, final))
  else
    (has_content ← has_truthy message (pystr "content");
     if has_content : bool then
       (content ← getattr message (pystr "content");
        match content with
        | PyList blocks _ =>
            generated' ← scan_blocks generated blocks;
            Ok (generated', final)
        | _ => Ok (generated, final)
        end)
     else Ok (generated, final)).

(** One turn of [async for message in client.receive_response()].  An
    exception leaves the loop with the state reached so far. *)
Definition loop_body (st : loop_state) (message : object)
  : loop_state * option exn :=
  let count := S (message_count st) in
  let st1 := mkLoop (generated_content st) (final_result_content st) count
               (tracker st) in
  match add_message_to_transcript (tracker st) count message with
  | Raise e => (st1, Some e)
  | Ok tracker' =>
      let st2 := mkLoop (generated_content st) (final_result_content st)
                   count tracker' in
      match inspect_message (generated_content st) (final_result_content st)
              message with
      | Raise e => (st2, Some e)
      | Ok (generated, final) => (mkLoop generated final count tracker', None)
      end
  end.

(** What the engine's response stream does: it yields [messages] and then
    ends, or raises [failure] in place of a next message. *)
Record stream := mkStream {
  messages : list object;
  failure : option exn
}.

Fixpoint receive_loop (st : loop_state) (msgs : list object)
    (failure : option exn) : loop_state * option exn :=
  match msgs with
  | [] => (st, failure)
  | message :: rest =>
      match loop_body st message with
      | (st', Some e) => (st', Some e)
      | (st', None) => receive_loop st' rest failure
      end
  end.

Definition no_content : str := pystr "-- No content generated --".

(** Lines 188-193. *)
Definition choose_final (st : loop_state) : str :=
  if nonempty (final_result_content st) then final_result_content st
  else if nonempty (generated_content st) then strip (generated_content st)
  else no_content.

(** The state in which the session left the receive loop. *)
Definition session_state (engine : stream) : loop_state * option exn :=
  receive_loop initial_state (messages engine) (failure engine).

(** [generate_with_sdk].  [mcp_server_found] is
    [mcp_server_path and os.path.exists(mcp_server_path)]. *)
Definition generate_with_sdk (use_mcp mcp_server_found : bool)
    (engine : stream) : outcome (str * ConversationTracker) :=
  if use_mcp && negb mcp_server_found
  then Raise (mkExn ValueError (pystr "MCP server not found"))
  else
    match session_state engine with
    | (st, None) => Ok (choose_final st, tracker st)
    | (_, Some e) => Raise e
    end.

(** ** The file system seen by [shutil.rmtree] *)

Abbreviation path := (list N) (only parsing).

(** The directories that exist, each with the number of removal attempts
    that will still fail on it: files written by the engine's subprocesses
    stay locked for a while.  A path that is not a key does not exist.
    The keys are the directories a session names, the workspace and the
    [out] of the results directory; what lies below a directory is not
    recorded, so a removal says nothing of the paths below it. *)
Abbreviation tree_state := (gmap (list N) nat) (only parsing).

Definition FileNotFoundError : exn :=
  mkExn OSError (pystr "[Errno 2] No such file or directory").
Definition PermissionError : exn :=
  mkExn OSError (pystr "[Errno 13] Permission denied").

(** [shutil.rmtree(p)] *)
Definition rmtree (p : path) (fs : tree_state) : outcome unit * tree_state :=
  match fs !! p with
  | None => (Raise FileNotFoundError, fs)
  | Some O => (Ok tt, delete p fs)
  | Some (S k) => (Raise PermissionError, <[p := k]> fs)
  end.

(** [shutil.rmtree(p, ignore_errors=True)] *)
Definition rmtree_ignore_errors (p : path) (fs : tree_state) : tree_state :=
  match fs !! p with
  | None => fs
  | Some O => delete p fs
  | Some (S k) => <[p := k]> fs
  end.

(** What the process does to the outside, in order. *)
Inductive event :=
| Rmtree (p : path) (ignore_errors : bool)
| Sleep (seconds : Q)
| PrintRetry (attempt : Z) (seconds : Q)
| PrintWarning (e : exn)
| Chdir (p : path)
| WriteResults
| CopyTree (src : path)
| PrintError (e : exn)
| Exit (code : Z).

(** [range(n)] *)
Definition range (n : Z) : list Z := Z.of_nat <$> seq 0 (Z.to_nat n).

(** ** [cleanup_directory] *)

(** The [for attempt in range(retries)] loop, over the attempts left. *)
Fixpoint cleanup_attempts (p : path) (retries : Z) (delay : Q)
    (attempts : list Z) (fs : tree_state)
  : outcome bool * tree_state * list event :=
  match attempts with
  | [] => (Ok false, fs, [])
  | attempt :: rest =>
      match rmtree p fs with
      | (Ok _, fs') => (Ok true, fs', [Rmtree p false])
      | (Raise e, fs') =>
          if is_OSError e then
            if (attempt <? retries - 1)%Z then
              let '(r, fs'', log) := cleanup_attempts p retries delay rest fs' in
              (r, fs'',
               Rmtree p false :: PrintRetry (attempt + 1) delay :: Sleep delay
               :: log)
            else
              (Ok false, rmtree_ignore_errors p fs',
               [Rmtree p false; PrintWarning e; Rmtree p true])
          else (Raise e, fs', [Rmtree p false])
      end
  end.

Definition cleanup_directory (p : path) (retries : Z) (delay : Q)
    (fs : tree_state) : outcome bool * tree_state * list event :=
  cleanup_attempts p retries delay (range retries) fs.

(** The defaults of the signature: [retries=3, delay=1.0]. *)
Definition default_retries : Z := 3.
Definition default_delay : Q := 1.

(** ** [write_results] *)

(** The results directory: file name to contents. *)
Definition heading_summary : str := pystr "# Summary" ++ nl ++ nl.
Definition heading_feedback : str := pystr "# Tool Feedback" ++ nl ++ nl.
Definition heading_transcript : str :=
  pystr "# Full Conversation Transcript" ++ nl ++ nl
  ++ pystr "This file contains the complete conversation flow with all messages, tool calls, and responses."
  ++ nl ++ nl.

(** [if section:] for an [Optional[str]] *)
Definition available (section : option str) : bool :=
  match section with
  | Some s => nonempty s
  | None => false
  end.

(** [if tracker and tracker.full_conversation:] *)
Definition has_entries (tracker : option ConversationTracker) : bool :=
  match tracker with
  | Some t => match full_conversation t with [] => false | _ => true end
  | None => false
  end.

(** [open(name, 'w')] followed by the writes: the file is replaced, and
    its name is noted. *)
Definition write_file (name : string) (data : str)
    (st : gmap string str * list string) : gmap string str * list string :=
  (<[name := data]> st.1, st.2 ++ [name]).

(** [write_results]: the directory afterwards and the files written, in
    order. *)
Definition write_results (results_dir : gmap string str) (content : str)
    (summary feedback response : option str)
    (tracker : option ConversationTracker)
  : gmap string str * list string :=
  let st := write_file "output.txt" content (results_dir, []) in
  let st :=
    if available summary
    then write_file "summary.md" (heading_summary ++ default [] summary) st
    else st in
  let st :=
    if available feedback
    then write_file "feedback.md" (heading_feedback ++ default [] feedback) st
    else st in
  let st :=
    if available response
    then write_file "response.txt" (default [] response) st
    else st in
  if has_entries tracker
  then write_file "transcript.md"
         (heading_transcript
          ++ match tracker with Some t => get_transcript t | None => [] end) st
  else st.

(** ** [copy_output_directory] *)

(** [os.path.join(a, b)] of [posixpath]: a second part that starts with
    the separator replaces the first; an empty first part, or one that ends
    with the separator, takes the second as it is. *)
Definition path_join (a b : str) : str :=
  match b with
  | 47%N :: _ => b
  | _ =>
      match last a with
      | None | Some 47%N => a ++ b
      | Some _ => a ++ pystr "/" ++ b
      end
  end.

Definition FileExistsError : exn :=
  mkExn OSError (pystr "[Errno 17] File exists").

(** [shutil.copytree(src, dst)] as far as directories exist: the source is
    listed first, then the destination is created, which must not exist.
    The new directory is not busy. *)
Definition copytree (src dst : path) (fs : tree_state)
  : outcome unit * tree_state :=
  match fs !! src with
  | None => (Raise FileNotFoundError, fs)
  | Some _ =>
      match fs !! dst with
      | Some _ => (Raise FileExistsError, fs)
      | None => (Ok tt, <[dst := 0]> fs)
      end
  end.

(** [copy_output_directory]: the old [out] is removed when it exists, in
    one attempt, and the working directory is copied in its place. *)
Definition copy_output_directory (src_dir results_dir : path)
    (fs : tree_state) : outcome path * tree_state * list event :=
  let out_dir := path_join results_dir (pystr "out") in
  let '(removed, fs1, log) :=
    match fs !! out_dir with
    | Some _ =>
        let '(r, fs1) := rmtree out_dir fs in (r, fs1, [Rmtree out_dir false])
    | None => (Ok tt, fs, [])
    end in
  match removed with
  | Raise e => (Raise e, fs1, log)
  | Ok _ =>
      match copytree src_dir out_dir fs1 with
      | (Ok _, fs2) => (Ok out_dir, fs2, log ++ [CopyTree src_dir])
      | (Raise e, fs2) => (Raise e, fs2, log ++ [CopyTree src_dir])
      end
  end.

(** ** [main_async]: one session inside the temporary directory *)

(** The process state the session touches. *)
Record process := mkProcess {
  cwd : path;
  trees : tree_state;
  results : gmap string str
}.

(** What the outside does during one session: the flags of the command
    line, the engine's stream, whether the wait for the engine is cut short
    by an exception that is not an [Exception] ([KeyboardInterrupt],
    [asyncio.CancelledError], [SystemExit]), whether writing the result
    files raises, and the directory the results go to. *)
Record session := mkSession {
  use_mcp : bool;
  mcp_server_found : bool;
  engine : stream;
  interrupted : bool;
  write_error : option exn;
  results_dir : path
}.

(** The [except Exception as e] handler of lines 397-401. *)
Definition on_error (original_cwd temp_dir : path) (e : exn) (p : process)
    (log : list event) : process * list event :=
  let '(_, fs, cleanup_log) :=
    cleanup_directory temp_dir default_retries default_delay (trees p) in
  (mkProcess original_cwd fs (results p),
   log ++ [Chdir original_cwd] ++ cleanup_log ++ [PrintError e; Exit 1]).

(** [main_async] from [original_cwd = os.getcwd()] on (lines 354-401):
    the arguments are parsed, the prompt is read and the temporary
    directory exists.  An exception that is not an [Exception] passes the
    handler of line 397: when it cuts the wait of line 359 short, neither
    line 368 nor the handler runs, and these lines are left as they are at
    that moment.  After line 368 such an exception finds the working
    directory already restored.  Returning from line 395 is the exit with
    code 0. *)
Definition main_async (s : session) (temp_dir : path) (p : process)
  : process * list event :=
  let original_cwd := cwd p in
  let p := mkProcess temp_dir (trees p) (results p) in
  let log := [Chdir temp_dir] in
  if interrupted s then (p, log)
  else
    match generate_with_sdk (use_mcp s) (mcp_server_found s) (engine s) with
    | Raise e => on_error original_cwd temp_dir e p log
    | Ok (generated_content, tracker) =>
        let p := mkProcess original_cwd (trees p) (results p) in
        let log := log ++ [Chdir original_cwd] in
        let '(summary, feedback, response) :=
          extract_tagged_sections generated_content in
        match write_error s with
        | Some e => on_error original_cwd temp_dir e p log
        | None =>
            let written :=
              write_results (results p) generated_content summary feedback
                response (Some tracker) in
            let p := mkProcess (cwd p) (trees p) written.1 in
            let log := log ++ [WriteResults] in
            let '(copied, fs, copy_log) :=
              copy_output_directory temp_dir (results_dir s) (trees p) in
            let p := mkProcess (cwd p) fs (results p) in
            let log := log ++ copy_log in
            match copied with
            | Raise e => on_error original_cwd temp_dir e p log
            | Ok out_dir =>
                let '(_, fs, cleanup_log) :=
                  cleanup_directory temp_dir default_retries default_delay
                    (trees p) in
                (mkProcess (cwd p) fs (results p),
                 log ++ cleanup_log ++ [Exit 0])
            end
        end
    end.

(** ** The preview of [main_async] *)



(** * Vocabulary of the properties *)

(** ** Occurrences of a literal in a text *)

(** [p] occurs in [s] at offset [i]. *)
Definition occurs_at (p s : str) (i : nat) : Prop :=
  ∃ a b, s = a ++ p ++ b ∧ length a = i.

(** The leftmost occurrence of [p] in [s] is at offset [i]. *)
Definition first_occurrence (p s : str) (i : nat) : Prop :=
  occurs_at p s i ∧ ∀ k, k < i → ¬ occurs_at p s k.

(** [r] is [s] without its leading and trailing whitespace. *)
Definition trimmed (s r : str) : Prop :=
  ∃ l t, s = l ++ r ++ t
    ∧ forallb is_space l = true ∧ forallb is_space t = true
    ∧ (∀ c, head r = Some c → is_space c = false)
    ∧ (∀ c, last r = Some c → is_space c = false).

(** [p] occurs somewhere in [s]. *)
Definition contains (p s : str) : Prop := ∃ i, occurs_at p s i.

(** ** What a section of the final text is *)

(** [res] is what the text holds for the tag [name]: the trimmed content
    between the leftmost opening delimiter and the nearest closing
    delimiter after it; nothing when no opening delimiter is followed by a
    closing one. *)
Definition section_between (name text : str) (res : option str) : Prop :=
  match res with
  | Some r =>
      ∃ pre inner post,
        text = pre ++ open_tag name ++ inner ++ close_tag name ++ post
        ∧ first_occurrence (open_tag name) text (length pre)
        ∧ first_occurrence (close_tag name) (inner ++ close_tag name ++ post)
            (length inner)
        ∧ r = strip inner ∧ trimmed inner r
  | None =>
      ∀ i j, occurs_at (open_tag name) text i →
             occurs_at (close_tag name) text j →
             j < i + length (open_tag name)
  end.

(** The text has a block of the tag [name] with content [inner], as a
    reader sees it: the opening delimiter, [inner], the closing delimiter,
    where [inner] holds neither delimiter of its own tag.  Nothing is asked
    of the text around the block. *)
Definition well_formed_block (name inner text : str) : Prop :=
  ∃ pre post,
    text = pre ++ open_tag name ++ inner ++ close_tag name ++ post
    ∧ ¬ contains (open_tag name) inner
    ∧ ¬ contains (close_tag name) inner.

(** The block of the tag [name] with content [inner] is the first thing of
    its tag in the text: the opening delimiter of [name] does not occur in
    the text before the block, which is a condition on whatever stands
    there, the content of earlier blocks of other tags included; and
    [inner] does not hold the closing delimiter of [name]. *)
Definition has_block (name inner text : str) : Prop :=
  ∃ pre post,
    text = pre ++ open_tag name ++ inner ++ close_tag name ++ post
    ∧ ¬ contains (open_tag name) pre
    ∧ ¬ contains (close_tag name) inner.

(** ** What a message contributes to the final text *)

(** The value of an attribute that [hasattr] finds. *)
Definition exposed (o : object) (name : str) : option pyval :=
  match assoc name (obj_attrs o) with
  | Some (Returns v) => Some v
  | _ => None
  end.

(** The [result] field of a message when it is there and truthy. *)
Definition truthy_result (message : object) : option pyval :=
  match exposed message (pystr "result") with
  | Some v => if py_truthy v then Some v else None
  | None => None
  end.

(** The stripped string form of a truthy [result] field, when it is not
    empty. *)
Definition adopted_result (message : object) : option str :=
  match truthy_result message with
  | Some v =>
      let t := strip (py_str v) in if nonempty t then Some t else None
  | None => None
  end.

(** The stripped text of a block with a [text] attribute and no [id]
    attribute, when it is not empty. *)
Definition text_fragment (block : pyval) : option str :=
  match block with
  | PyObj o =>
      match exposed o (pystr "text"), exposed o (pystr "id") with
      | Some (PyStr s), None =>
          if nonempty (strip s) then Some (strip s) else None
      | _, _ => None
      end
  | _ => None
  end.

(** The fragments of a message without a truthy [result] field, from its
    list of content blocks. *)
Definition fragments (message : object) : list str :=
  match truthy_result message with
  | Some _ => []
  | None =>
      match exposed message (pystr "content") with
      | Some (PyList blocks _) => omap text_fragment blocks
      | _ => []
      end
  end.

(** ["\n".join(lines)] *)
Fixpoint join_lines (lines : list str) : str :=
  match lines with
  | [] => []
  | [l] => l
  | l :: rest => l ++ nl ++ join_lines rest
  end.

(** The precedence of the final text: the most recent adopted result;
    else the fragments of all messages in arrival order, joined by
    newlines and stripped; else the sentinel. *)
Definition final_text (msgs : list object) : str :=
  match last (omap adopted_result msgs) with
  | Some r => r
  | None =>
      match msgs ≫= fragments with
      | [] => no_content
      | fs => strip (join_lines fs)
      end
  end.

(** The same precedence with the first case read as: any [result] field
    whose stripped string form is not empty, truthy or not. *)
Definition shown_result (message : object) : option str :=
  match exposed message (pystr "result") with
  | Some v =>
      let t := strip (py_str v) in if nonempty t then Some t else None
  | None => None
  end.

Definition final_text_any_result (msgs : list object) : str :=
  match last (omap shown_result msgs) with
  | Some r => r
  | None =>
      match msgs ≫= fragments with
      | [] => no_content
      | fs => strip (join_lines fs)
      end
  end.

(** Every attribute of the object reads without raising. *)
Definition readable (o : object) : bool :=
  forallb (λ g, match g with Returns _ => true | Throws _ => false end)
    (obj_attrs o).*2.

(** A content block the loop can scan: a readable object whose [text],
    when it is asked for, is a string; any value that is not an object. *)
Definition plain_block (block : pyval) : bool :=
  match block with
  | PyObj o =>
      readable o
      && match exposed o (pystr "text") with
         | Some (PyStr _) | None => true
         | Some _ => false
         end
  | _ => true
  end.

(** A message of readable attributes whose content, when it is a list,
    holds plain blocks. *)
Definition plain_message (message : object) : bool :=
  readable message
  && match exposed message (pystr "content") with
     | Some (PyList blocks _) => forallb plain_block blocks
     | _ => true
     end.

(** What the block loop appends for a list of fragments. *)
Definition lines_of (fs : list str) : str := concat ((λ t, t ++ nl) <$> fs).

(** ** What an entry of the transcript holds *)

(** The lines of one attribute in an entry: nothing for a private name,
    for a callable value and for [None]; the rendering of the value; the
    error note when reading or rendering raises. *)
Definition field_lines (message : object) (attr_name : str) : str :=
  if is_private attr_name then []
  else
    match getattr message attr_name with
    | Ok v =>
        if py_callable v then []
        else
          match render_value attr_name v with
          | Ok text => text
          | Raise e => render_error attr_name e
          end
    | Raise e => render_error attr_name e
    end.

(** Reading the attribute [attr_name] raises nothing but
    [AttributeError]. *)
Definition reads_safely (message : object) (attr_name : str) : bool :=
  match getattr message attr_name with
  | Ok _ => true
  | Raise e => is_AttributeError e
  end.

(** Every public attribute of the message reads safely. *)
Definition recordable (message : object) : bool :=
  forallb (λ attr_name, is_private attr_name || reads_safely message attr_name)
    (obj_attrs message).*1.

(** The entry of the [n]-th message. *)
Definition entry_of (n : nat) (message : object) : str :=
  entry_header n message
  ++ concat (field_lines message <$> (obj_attrs message).*1)
  ++ entry_footer.

(** ** Messages of the engine, for the examples

    The engine's messages and blocks are instances of data classes; their
    [dir()] lists the dunder methods before the fields. *)

Definition bound_method : getter :=
  Returns (PyObj (Object (pystr "method") true true (pystr "<bound method>") [])).

Definition TextBlock (text : str) : pyval :=
  PyObj (Object (pystr "TextBlock") true false
           (pystr "TextBlock(text='" ++ text ++ pystr "')")
           [(pystr "__init__", bound_method);
            (pystr "text", Returns (PyStr text))]).

Definition ToolUseBlock (id name : str) : pyval :=
  PyObj (Object (pystr "ToolUseBlock") true false
           (pystr "ToolUseBlock(id='" ++ id ++ pystr "', name='" ++ name
            ++ pystr "', input={})")
           [(pystr "__init__", bound_method);
            (pystr "id", Returns (PyStr id));
            (pystr "input", Returns (PyDict false (pystr "{}") (Ok (pystr "{}"))));
            (pystr "name", Returns (PyStr name))]).

Definition AssistantMessage (content : list pyval) : object :=
  Object (pystr "AssistantMessage") true false (pystr "AssistantMessage(...)")
    [(pystr "__init__", bound_method);
     (pystr "content", Returns (PyList content (pystr "[...]")));
     (pystr "model", Returns (PyStr (pystr "claude")));
     (pystr "parent_tool_use_id", Returns PyNone)].

Definition ResultMessage (result : pyval) : object :=
  Object (pystr "ResultMessage") true false (pystr "ResultMessage(...)")
    [(pystr "__init__", bound_method);
     (pystr "is_error", Returns (PyBool false));
     (pystr "num_turns", Returns (PyInt 2));
     (pystr "result", Returns result);
     (pystr "subtype", Returns (PyStr (pystr "success")))].

(** A message with both a result and content blocks. *)
Definition ReplyMessage (result : pyval) (content : list pyval) : object :=
  Object (pystr "ReplyMessage") true false (pystr "ReplyMessage(...)")
    [(pystr "__init__", bound_method);
     (pystr "content", Returns (PyList content (pystr "[...]")));
     (pystr "result", Returns result)].

(** A message one of whose properties raises when it is read. *)
Definition UnreadableMessage (e : exn) : object :=
  Object (pystr "PartialMessage") true false (pystr "PartialMessage(...)")
    [(pystr "__init__", bound_method);
     (pystr "model", Returns (PyStr (pystr "claude")));
     (pystr "usage", Throws e)].

(** The message has a [result] attribute that is truthy and whose string
    form strips to the empty string. *)
Definition blank_result (message : object) : Prop :=
  ∃ v, exposed message (pystr "result") = Some v
       ∧ py_truthy v = true ∧ strip (py_str v) = [].

(** ** What a cleanup does, read off its log *)

(** A failed attempt that is retried: the removal, the notice, the sleep. *)
Definition retry_round (p : path) (delay : Q) (attempt : Z) : list event :=
  [Rmtree p false; PrintRetry (attempt + 1) delay; Sleep delay].

(** The attempt after which the code gives up: the removal, the warning,
    the forced removal. *)
Definition giving_up (p : path) (e : exn) : list event :=
  [Rmtree p false; PrintWarning e; Rmtree p true].

(** The delays slept, in order. *)
Definition sleeps (log : list event) : list Q :=
  omap (λ ev, match ev with Sleep d => Some d | _ => None end) log.

(** The cleanup warning was printed. *)
Definition warned (log : list event) : bool :=
  existsb (λ ev, match ev with PrintWarning _ => true | _ => false end) log.

(** The forced removal was performed. *)
Definition forced (log : list event) : bool :=
  existsb (λ ev, match ev with Rmtree _ true => true | _ => false end) log.

(** Each delay is longer than the one before. *)
Definition increasing (delays : list Q) : Prop :=
  ∀ i x y, delays !! i = Some x → delays !! S i = Some y → (x < y)%Q.

(** The temporary directory of the examples. *)
Definition tmp : path := pystr "/tmp/tmpk3v9".

(** ** Events of a session *)


(** The working directory after the events of [log], from [start]. *)
Definition cwd_after (start : path) (log : list event) : path :=
  foldl (λ dir ev, match ev with Chdir q => q | _ => dir end) start log.


(** A text that is not empty and neither starts nor ends with
    whitespace. *)
Definition tidy (f : str) : Prop :=
  f ≠ []
  ∧ (∀ c, head f = Some c → is_space c = false)
  ∧ (∀ c, last f = Some c → is_space c = false).

(** ** Texts and streams of the examples *)

Definition blocks_out_of_order : str :=
  pystr "<response>see summary and feedback</response> then <feedback> response ok </feedback><summary>feedback given</summary>".

(** Three blocks, the first of which quotes the opening delimiter of the
    last. *)
Definition quoted_delimiter : str :=
  pystr "<summary>wrap it in <response> tags</summary><feedback>f</feedback><response>R</response>".

Definition answered_session : stream :=
  mkStream
    [AssistantMessage [TextBlock (pystr " let me look "); ToolUseBlock (pystr "t1") (pystr "search")];
     ResultMessage (PyStr (pystr " done "))]
    None.

(** Scenario A: the result field holds a summary and a response. *)
Definition scenario_A : str :=
  pystr "<summary>Used tool X</summary><response>CREATE TABLE foo(id INT);</response>".

(** ** Lines of a text *)




(** * Properties *)

(** ** Stripping *)

Lemma lstrip_split (s : str) :
  ∃ l, s = l ++ lstrip s ∧ forallb is_space l = true
    ∧ ∀ c, head (lstrip s) = Some c → is_space c = false.
Proof.
  induction s as [|c s IH]; simpl.
  - exists []. split_and!; [done..|]. intros c [=].
  - destruct (is_space c) eqn:Hc.
    + destruct IH as (l & Hs & Hl & Hh).
      exists (c :: l). split_and!; [simpl; by f_equal | by simpl; rewrite Hc | done].
    + exists []. split_and!; [done..|]. intros c' [= <-]. done.
Qed.

Lemma lstrip_app_nonspace (s t : str) (c : char) :
  is_space c = false → lstrip (s ++ c :: t) = lstrip s ++ c :: t.
Proof.
  intros Hc. induction s as [|d s IH]; simpl.
  - by rewrite Hc.
  - destruct (is_space d); [exact IH | done].
Qed.

Lemma lstrip_all_space (s : str) :
  forallb is_space s = true → lstrip s = [].
Proof.
  induction s as [|c s IH]; simpl; [done|].
  destruct (is_space c); simpl; [exact IH | done].
Qed.

Lemma lstrip_nonspace_head (s : str) (c : char) :
  head s = Some c → is_space c = false → lstrip s = s.
Proof. destruct s as [|d s]; simpl; [done|]. intros [= ->] ->. done. Qed.

Lemma lstrip_spaces_app (l s : str) :
  forallb is_space l = true → lstrip (l ++ s) = lstrip s.
Proof.
  induction l as [|c l IH]; simpl; [done|].
  destruct (is_space c); simpl; [exact IH | done].
Qed.

Lemma forallb_rev (l : str) :
  forallb is_space (rev l) = forallb is_space l.
Proof.
  induction l as [|c l IH]; simpl; [done|].
  rewrite forallb_app, IH. simpl. rewrite andb_true_r. apply andb_comm.
Qed.

Lemma head_rev_last {A} (l : list A) : head (rev l) = last l.
Proof.
  induction l as [|a l IH] using rev_ind; [done|].
  by rewrite rev_app_distr, last_snoc.
Qed.

Lemma strip_trimmed (s : str) : trimmed s (strip s).
Proof.
  unfold strip, rstrip.
  destruct (lstrip_split s) as (l & Hs & Hl & Hh).
  destruct (lstrip_split (rev (lstrip s))) as (t & Hr & Ht & Hlast).
  set (r := rev (lstrip (rev (lstrip s)))) in *.
  assert (Hsplit : lstrip s = r ++ rev t).
  { rewrite <-(rev_involutive (lstrip s)), Hr, rev_app_distr. done. }
  exists l, (rev t). split_and!.
  - by rewrite <-Hsplit.
  - done.
  - by rewrite forallb_rev.
  - intros c Hc. apply Hh. rewrite Hsplit.
    destruct r; [done|]. exact Hc.
  - intros c Hc. apply Hlast. subst r.
    by rewrite <-head_rev_last, rev_involutive in Hc.
Qed.

(** A string is determined by what is trimmed from it. *)
Lemma strip_unique (l r t : str) :
  forallb is_space l = true → forallb is_space t = true →
  (∀ c, head r = Some c → is_space c = false) →
  (∀ c, last r = Some c → is_space c = false) →
  strip (l ++ r ++ t) = r.
Proof.
  intros Hl Ht Hh Hlast. unfold strip, rstrip.
  rewrite lstrip_spaces_app by done.
  destruct r as [|c r].
  { simpl. by rewrite (lstrip_all_space t). }
  rewrite (lstrip_nonspace_head ((c :: r) ++ t) c); [|done|by apply Hh].
  rewrite rev_app_distr.
  rewrite lstrip_spaces_app by (by rewrite forallb_rev).
  destruct (last (c :: r)) as [d|] eqn:Hd.
  - rewrite (lstrip_nonspace_head _ d).
    + apply rev_involutive.
    + by rewrite head_rev_last.
    + by apply Hlast.
  - by apply last_None in Hd.
Qed.

Lemma strip_idemp (s : str) : strip (strip s) = strip s.
Proof.
  destruct (strip_trimmed s) as (l & t & _ & _ & _ & Hh & Hl).
  apply (strip_unique [] (strip s) []) in Hh; [|done..].
  by rewrite app_nil_r in Hh.
Qed.

(** ** The literal matcher and occurrences *)

Lemma match_literal_Some (p s r : str) :
  match_literal p s = Some r ↔ s = p ++ r.
Proof.
  revert s. induction p as [|a p IH]; intros s; simpl.
  - split; congruence.
  - destruct s as [|b s]; [done|].
    destruct (N.eqb_spec a b) as [->|Hne].
    + rewrite IH. split; congruence.
    + split; [done | congruence].
Qed.

Lemma occurs_at_0 (p s : str) : occurs_at p s 0 ↔ ∃ b, s = p ++ b.
Proof.
  split.
  - intros (a & b & -> & Ha). destruct a; [|done]. by exists b.
  - intros [b ->]. by exists [], b.
Qed.

Lemma match_literal_None (p s : str) :
  match_literal p s = None ↔ ¬ occurs_at p s 0.
Proof.
  rewrite occurs_at_0. split.
  - intros Hm [b Hb]. apply match_literal_Some in Hb. congruence.
  - intros Hno. destruct (match_literal p s) as [r|] eqn:Hm; [|done].
    apply match_literal_Some in Hm. destruct Hno. by exists r.
Qed.

Lemma occurs_at_S (p s : str) (c : char) (k : nat) :
  occurs_at p (c :: s) (S k) ↔ occurs_at p s k.
Proof.
  split.
  - intros (a & b & Hs & Ha). destruct a as [|d a]; [done|].
    simpl in *. exists a, b. split; congruence.
  - intros (a & b & -> & <-). by exists (c :: a), b.
Qed.

Lemma occurs_at_nil (p : str) (i : nat) : occurs_at p [] i → i = 0.
Proof. intros (a & b & Hs & <-). by destruct a. Qed.

Lemma occurs_at_app_drop (o b p : str) (j : nat) :
  occurs_at p (o ++ b) j → length o ≤ j → occurs_at p b (j - length o).
Proof.
  intros (a & d & Hs & <-) Hle.
  exists (drop (length o) a), d. split.
  - apply (f_equal (drop (length o))) in Hs.
    by rewrite drop_app_length, drop_app_le in Hs.
  - by rewrite length_drop.
Qed.

Lemma occurs_at_app_skip (a p s : str) (j : nat) :
  occurs_at p s j → occurs_at p (a ++ s) (length a + j).
Proof.
  intros (u & v & -> & <-). exists (a ++ u), v.
  by rewrite <-app_assoc, length_app.
Qed.

(** ** The lazy repeat stops at the nearest closing literal *)

Lemma match_lazy_until_Some (close s g : str) :
  match_lazy_until close s = Some g →
  ∃ post, s = g ++ close ++ post ∧ first_occurrence close s (length g).
Proof.
  revert g. induction s as [|c s IH]; intros g; simpl.
  - destruct (match_literal close []) as [r|] eqn:Hm; [|done].
    intros [= <-]. apply match_literal_Some in Hm.
    exists r. split; [done|]. split; [by apply occurs_at_0; exists r | simpl; lia].
  - destruct (match_literal close (c :: s)) as [r|] eqn:Hm.
    + intros [= <-]. apply match_literal_Some in Hm.
      exists r. split; [done|]. split; [by apply occurs_at_0; exists r | simpl; lia].
    + destruct (match_lazy_until close s) as [g'|]; [|done].
      intros [= <-]. destruct (IH g' eq_refl) as (post & -> & Hocc & Hfirst).
      exists post. split; [done|]. split.
      * by apply occurs_at_S.
      * intros [|k] Hk.
        -- by apply match_literal_None.
        -- rewrite occurs_at_S. apply Hfirst. simpl in Hk. lia.
Qed.

Lemma match_lazy_until_None (close s : str) :
  match_lazy_until close s = None → ∀ k, ¬ occurs_at close s k.
Proof.
  induction s as [|c s IH]; simpl.
  - destruct (match_literal close []) eqn:Hm; [done|]. intros _ k Hk.
    apply match_literal_None in Hm. by rewrite (occurs_at_nil _ _ Hk) in Hk.
  - destruct (match_literal close (c :: s)) eqn:Hm; [done|].
    destruct (match_lazy_until close s); [done|]. intros _ [|k].
    + by apply match_literal_None.
    + rewrite occurs_at_S. by apply IH.
Qed.

(** ** The search starts at the leftmost opening literal *)

(** When the pattern does not match at an opening literal that is there,
    no closing literal follows it. *)
Lemma match_here_None (open close s : str) (j : nat) :
  match_here open close s = None → occurs_at open s 0 →
  occurs_at close s j → j < length open.
Proof.
  unfold match_here. intros Hm [b ->]%occurs_at_0 Hj.
  rewrite (proj2 (match_literal_Some open (open ++ b) b) eq_refl) in Hm.
  destruct (decide (j < length open)) as [|Hge]; [done|].
  eapply match_lazy_until_None in Hm. destruct Hm.
  apply occurs_at_app_drop; [exact Hj | lia].
Qed.

Lemma re_search_None (open close s : str) (i j : nat) :
  re_search open close s = None →
  occurs_at open s i → occurs_at close s j → j < i + length open.
Proof.
  revert i j. induction s as [|c s IH]; intros i j; simpl.
  - destruct (match_here open close []) eqn:Hm; [done|]. intros _ Hi Hj.
    pose proof (occurs_at_nil _ _ Hi) as ->.
    exact (match_here_None _ _ _ _ Hm Hi Hj).
  - destruct (match_here open close (c :: s)) eqn:Hm; [done|].
    intros Hs Hi Hj. destruct i as [|i].
    + exact (match_here_None _ _ _ _ Hm Hi Hj).
    + destruct j as [|j]; [lia|]. apply occurs_at_S in Hi, Hj.
      specialize (IH i j Hs Hi Hj). lia.
Qed.

Lemma re_search_Some (open close s g : str) :
  re_search open close s = Some g →
  ∃ pre post, s = pre ++ open ++ g ++ close ++ post
    ∧ first_occurrence open s (length pre)
    ∧ first_occurrence close (g ++ close ++ post) (length g).
Proof.
  assert (Hhere : ∀ t, match_here open close t = Some g →
    ∃ post, t = open ++ g ++ close ++ post
      ∧ first_occurrence close (g ++ close ++ post) (length g)).
  { intros t. unfold match_here.
    destruct (match_literal open t) as [rest|] eqn:Hm; [|done].
    apply match_literal_Some in Hm. intros (post & -> & Hf)%match_lazy_until_Some.
    by exists post. }
  induction s as [|c s IH]; simpl.
  - destruct (match_here open close []) as [g'|] eqn:Hm; [|done].
    intros [= ->]. destruct (Hhere _ Hm) as (post & Hs & Hf).
    exists [], post. split_and!; [done| |done].
    split; [apply occurs_at_0; by eexists | simpl; lia].
  - destruct (match_here open close (c :: s)) as [g'|] eqn:Hm.
    + intros [= ->]. destruct (Hhere _ Hm) as (post & Hs & Hf).
      exists [], post. split_and!; [done| |done].
      split; [apply occurs_at_0; by eexists | simpl; lia].
    + intros Hs. destruct (IH Hs) as (pre & post & -> & [Ho Hfirst] & Hc).
      exists (c :: pre), post. split_and!; [done| |done]. split.
      * by apply occurs_at_S.
      * intros [|k] Hk Hocc.
        -- assert (Hj : occurs_at close (c :: pre ++ open ++ g ++ close ++ post)
                     (length (c :: pre ++ open ++ g))).
           { exists (c :: pre ++ open ++ g), post. split; [|done].
             simpl. by rewrite <-!app_assoc. }
           pose proof (match_here_None _ _ _ _ Hm Hocc Hj) as Hlt.
           simpl in Hlt. rewrite !length_app in Hlt. lia.
        -- apply occurs_at_S in Hocc. apply (Hfirst k); [simpl in Hk; lia|done].
Qed.

Lemma first_occurrence_unique (p s : str) (i j : nat) :
  first_occurrence p s i → first_occurrence p s j → i = j.
Proof.
  intros [Hi Hfi] [Hj Hfj].
  destruct (lt_eq_lt_dec i j) as [[Hlt| ->]|Hlt]; [|done|].
  - by destruct (Hfj i).
  - by destruct (Hfi j).
Qed.

(** The search finds the block whose delimiters are the leftmost opening
    one and the nearest closing one. *)
Lemma re_search_complete (open close pre inner post : str) :
  first_occurrence open (pre ++ open ++ inner ++ close ++ post) (length pre) →
  first_occurrence close (inner ++ close ++ post) (length inner) →
  re_search open close (pre ++ open ++ inner ++ close ++ post) = Some inner.
Proof.
  intros Ho Hc.
  destruct (re_search open close (pre ++ open ++ inner ++ close ++ post))
    as [g|] eqn:Hs.
  - apply re_search_Some in Hs as (pre' & post' & Heq & Ho' & Hc').
    pose proof (first_occurrence_unique _ _ _ _ Ho' Ho) as Hlen.
    apply app_inj_1 in Heq as [-> Heq]; [|done].
    apply app_inv_head in Heq. rewrite <-Heq in Hc'.
    pose proof (first_occurrence_unique _ _ _ _ Hc' Hc) as Hlen'.
    symmetry in Heq. apply app_inj_1 in Heq as [-> _]; done.
  - exfalso. destruct Ho as [Ho _]. 
    assert (Hj : occurs_at close (pre ++ open ++ inner ++ close ++ post)
                   (length (pre ++ open ++ inner))).
    { exists (pre ++ open ++ inner), post. by rewrite <-!app_assoc. }
    pose proof (re_search_None _ _ _ _ _ Hs Ho Hj) as Hlt.
    rewrite !length_app in Hlt. lia.
Qed.

(** A literal that starts with a character it does not repeat cannot
    overlap its own occurrence: before an occurrence it is found only
    inside what precedes. *)
Lemma occurs_before (c0 : char) (q pre rest : str) (k : nat) :
  c0 ∉ q → k < length pre →
  occurs_at (c0 :: q) (pre ++ (c0 :: q) ++ rest) k →
  contains (c0 :: q) pre.
Proof.
  intros Hq Hk (a & b & Heq & Ha).
  destruct (decide (k + S (length q) ≤ length pre)) as [Hin|Hout].
  - exists k, a, (drop (k + S (length q)) pre). split; [|done].
    apply (f_equal (take (k + S (length q)))) in Heq.
    rewrite take_app_le in Heq by done.
    rewrite (app_assoc a), take_app_length' in Heq
      by (rewrite length_app; simpl; lia).
    rewrite <-(take_drop (k + S (length q)) pre) at 1.
    by rewrite Heq, <-app_assoc.
  - exfalso. apply Hq.
    apply (f_equal (λ l : list N, l !! length pre)) in Heq. simpl in Heq.
    rewrite lookup_app_r, Nat.sub_diag in Heq by done. simpl in Heq.
    rewrite lookup_app_r in Heq by lia.
    destruct (length pre - length a) as [|m] eqn:Hm; [lia|].
    simpl in Heq. rewrite lookup_app_l in Heq by lia.
    apply list_elem_of_lookup. by exists m.
Qed.

Lemma first_occurrence_after (c0 : char) (q pre rest : str) :
  c0 ∉ q → ¬ contains (c0 :: q) pre →
  first_occurrence (c0 :: q) (pre ++ (c0 :: q) ++ rest) (length pre).
Proof.
  intros Hq Hpre. split.
  - by exists pre, rest.
  - intros k Hk Hocc. apply Hpre. by eapply occurs_before.
Qed.

(** ** Sections of the final text *)

Lemma extract_section_between (name content : str) :
  section_between name content (extract_section name content).
Proof.
  unfold extract_section, section_between.
  destruct (re_search (open_tag name) (close_tag name) content) as [g|] eqn:Hs.
  - apply re_search_Some in Hs as (pre & post & Heq & Ho & Hc).
    exists pre, g, post. split_and!; [done..|]. apply strip_trimmed.
  - intros i j. by apply re_search_None.
Qed.

Lemma extract_section_block (name inner text : str) :
  60%N ∉ name → has_block name inner text →
  extract_section name text = Some (strip inner).
Proof.
  intros Hname (pre & post & -> & Hpre & Hinner). unfold extract_section.
  assert (Hopen : 60%N ∉ name ++ pystr ">").
  { intros [H|H]%elem_of_app; [done|]. by apply list_elem_of_singleton in H. }
  assert (Hclose : 60%N ∉ 47%N :: name ++ pystr ">").
  { intros [H|H]%elem_of_cons; [done|]. by apply Hopen. }
  rewrite re_search_complete; [done| |].
  - by apply (first_occurrence_after 60 (name ++ pystr ">")).
  - by apply (first_occurrence_after 60 (47%N :: name ++ pystr ">")).
Qed.

(** C2. For every text and each of the three names, the section returned
    by [extract_tagged_sections] is the content between the leftmost
    opening delimiter and the nearest closing delimiter after it, with
    leading and trailing whitespace removed; it is [None] exactly when no
    opening delimiter is followed by a closing one.  The function is total:
    a missing delimiter raises nothing. *)
Theorem extract_tagged_sections_between (content : str) :
  let '(summary, feedback, response) := extract_tagged_sections content in
  section_between (pystr "summary") content summary
  ∧ section_between (pystr "feedback") content feedback
  ∧ section_between (pystr "response") content response.
Proof.
  unfold extract_tagged_sections. split_and!; apply extract_section_between.
Qed.

(** Scenario A: the sections of the result text. *)
Example extract_scenario_A :
  extract_tagged_sections
    (pystr "<summary>Used tool X</summary><response>CREATE TABLE foo(id INT);</response>")
  = (Some (pystr "Used tool X"), None, Some (pystr "CREATE TABLE foo(id INT);")).
Proof. vm_compute. reflexivity. Qed.

(** No tag, or a closing delimiter before the opening one: no section. *)
Example extract_no_sections :
  extract_tagged_sections (pystr "plain answer") = (None, None, None)
  ∧ extract_tagged_sections (pystr "</summary> late <summary>")
    = (None, None, None).
Proof. split; vm_compute; reflexivity. Qed.

(** The content of a section spans lines. *)
Example extract_across_lines :
  extract_tagged_sections
    (pystr "<summary>" ++ nl ++ pystr "step 1" ++ nl ++ pystr "step 2" ++ nl
     ++ pystr "</summary>")
  = (Some (pystr "step 1" ++ nl ++ pystr "step 2"), None, None).
Proof. vm_compute. reflexivity. Qed.

(** When the text before a block holds the block's opening delimiter,
    here inside the summary, the response section starts at that first
    opening delimiter. *)
Example extract_delimiter_in_content :
  extract_tagged_sections
    (pystr "<summary>wrap it in <response> tags</summary><response>R</response>")
  = (Some (pystr "wrap it in <response> tags"), None,
     Some (pystr "tags</summary><response>R")).
Proof. vm_compute. reflexivity. Qed.

Lemma not_contains_by_search (p s : str) :
  match_lazy_until p s = None → ¬ contains p s.
Proof. intros Hm [i Hi]. by eapply match_lazy_until_None. Qed.

(** C3, as stated, fails.  The text holds one well-formed block of each
    tag, and the summary's content quotes the opening delimiter of the
    response tag, so it contains the literal string of that tag's name.
    The response returned is not the trimmed content [R] of the response
    block: it starts inside the summary and runs over the feedback
    block. *)
Lemma opening_delimiter_in_earlier_block :
  well_formed_block (pystr "summary") (pystr "wrap it in <response> tags")
    quoted_delimiter
  ∧ well_formed_block (pystr "feedback") (pystr "f") quoted_delimiter
  ∧ well_formed_block (pystr "response") (pystr "R") quoted_delimiter
  ∧ trimmed (pystr "R") (pystr "R")
  ∧ (extract_tagged_sections quoted_delimiter).2
    = Some (pystr "tags</summary><feedback>f</feedback><response>R")
  ∧ (extract_tagged_sections quoted_delimiter).2 ≠ Some (pystr "R").
Proof.
  split_and!.
  - exists [], (pystr "<feedback>f</feedback><response>R</response>").
    split_and!; [vm_compute; reflexivity | | ];
      apply not_contains_by_search; vm_compute; reflexivity.
  - exists (pystr "<summary>wrap it in <response> tags</summary>"),
      (pystr "<response>R</response>").
    split_and!; [vm_compute; reflexivity | | ];
      apply not_contains_by_search; vm_compute; reflexivity.
  - exists (pystr "<summary>wrap it in <response> tags</summary><feedback>f</feedback>"),
      [].
    split_and!; [vm_compute; reflexivity | | ];
      apply not_contains_by_search; vm_compute; reflexivity.
  - exists [], []. split_and!; [done..| |]; intros c [= <-]; done.
  - vm_compute. reflexivity.
  - vm_compute. discriminate.
Qed.

(** C3, as the code has it.  When the block of a tag is the first thing of its tag in
    the text, that is, the tag's opening delimiter does not occur before
    the block, and the block's content does not hold the tag's closing
    delimiter, the section returned for the tag is the content of that
    block without its leading and trailing whitespace.  Nothing else is
    asked: the blocks may come in any order, blocks of the other tags may
    be present or not, and the names and closing delimiters of the other
    tags may occur anywhere. *)
Theorem extract_blocks_independent (text : str) :
  (∀ inner, has_block (pystr "summary") inner text →
     ∃ r, (extract_tagged_sections text).1.1 = Some r
          ∧ r = strip inner ∧ trimmed inner r)
  ∧ (∀ inner, has_block (pystr "feedback") inner text →
     ∃ r, (extract_tagged_sections text).1.2 = Some r
          ∧ r = strip inner ∧ trimmed inner r)
  ∧ (∀ inner, has_block (pystr "response") inner text →
     ∃ r, (extract_tagged_sections text).2 = Some r
          ∧ r = strip inner ∧ trimmed inner r).
Proof.
  unfold extract_tagged_sections; simpl.
  split_and!; intros inner Hb; exists (strip inner);
    (split_and!; [|done|apply strip_trimmed]);
    (apply extract_section_block; [|done]);
    vm_compute; intros H; repeat (apply elem_of_cons in H as [H|H]; [done|]);
    by apply elem_of_nil in H.
Qed.

Lemma extract_blocks_independent_witness :
  (has_block (pystr "summary") (pystr "feedback given") blocks_out_of_order
   ∧ ∃ r, (extract_tagged_sections blocks_out_of_order).1.1 = Some r
          ∧ r = strip (pystr "feedback given")
          ∧ trimmed (pystr "feedback given") r)
  ∧ (has_block (pystr "feedback") (pystr " response ok ") blocks_out_of_order
     ∧ ∃ r, (extract_tagged_sections blocks_out_of_order).1.2 = Some r
            ∧ r = strip (pystr " response ok ")
            ∧ trimmed (pystr " response ok ") r)
  ∧ (has_block (pystr "response") (pystr "see summary and feedback")
       blocks_out_of_order
     ∧ ∃ r, (extract_tagged_sections blocks_out_of_order).2 = Some r
            ∧ r = strip (pystr "see summary and feedback")
            ∧ trimmed (pystr "see summary and feedback") r).
Proof.
  assert (Hs : has_block (pystr "summary") (pystr "feedback given")
                 blocks_out_of_order).
  { exists (pystr "<response>see summary and feedback</response> then <feedback> response ok </feedback>"), [].
    split_and!; [vm_compute; reflexivity | | ];
      apply not_contains_by_search; vm_compute; reflexivity. }
  assert (Hf : has_block (pystr "feedback") (pystr " response ok ")
                 blocks_out_of_order).
  { exists (pystr "<response>see summary and feedback</response> then "),
      (pystr "<summary>feedback given</summary>").
    split_and!; [vm_compute; reflexivity | | ];
      apply not_contains_by_search; vm_compute; reflexivity. }
  assert (Hr : has_block (pystr "response") (pystr "see summary and feedback")
                 blocks_out_of_order).
  { exists [], (pystr " then <feedback> response ok </feedback><summary>feedback given</summary>").
    split_and!; [vm_compute; reflexivity | | ];
      apply not_contains_by_search; vm_compute; reflexivity. }
  destruct (extract_blocks_independent blocks_out_of_order) as (H1 & H2 & H3).
  split_and!; [exact Hs | exact (H1 _ Hs) | exact Hf | exact (H2 _ Hf)
              | exact Hr | exact (H3 _ Hr)].
Defined.

(** ** Reading attributes *)

Lemma getattr_Ok (o : object) (name : str) (v : pyval) :
  getattr o name = Ok v ↔ exposed o name = Some v.
Proof.
  unfold getattr, exposed.
  destruct (assoc name (obj_attrs o)) as [[w|e]|]; split; congruence.
Qed.

Lemma hasattr_Ok (o : object) (name : str) (b : bool) :
  hasattr o name = Ok b →
  b = match exposed o name with Some _ => true | None => false end.
Proof.
  unfold hasattr, getattr, exposed.
  destruct (assoc name (obj_attrs o)) as [[w|e]|]; simpl.
  - by intros [= <-].
  - destruct (is_AttributeError e); [|done]. by intros [= <-].
  - by intros [= <-].
Qed.

Lemma has_truthy_Ok (o : object) (name : str) (b : bool) :
  has_truthy o name = Ok b →
  b = match exposed o name with Some v => py_truthy v | None => false end.
Proof.
  unfold has_truthy.
  destruct (hasattr o name) as [h|e] eqn:Hh; simpl; [|done].
  apply hasattr_Ok in Hh.
  destruct (exposed o name) as [v|] eqn:Hx; subst h.
  - rewrite (proj2 (getattr_Ok _ _ _) Hx). simpl. congruence.
  - congruence.
Qed.

(** ** The block loop collects the fragments *)

Lemma scan_block_Ok (g g' : str) (block : pyval) :
  scan_block g block = Ok g' →
  g' = g ++ lines_of (option_list (text_fragment block)).
Proof.
  unfold scan_block, text_fragment, lines_of.
  destruct block as [| | | | | |o]; simpl;
    try (intros [= <-]; by rewrite app_nil_r).
  destruct (hasattr o (pystr "text")) as [ht|] eqn:Ht; simpl; [|done].
  apply hasattr_Ok in Ht.
  destruct (exposed o (pystr "text")) as [t|] eqn:Hxt; subst ht.
  2:{ intros [= <-]. by rewrite app_nil_r. }
  destruct (hasattr o (pystr "id")) as [hi|] eqn:Hi; simpl; [|done].
  apply hasattr_Ok in Hi.
  destruct (exposed o (pystr "id")) as [i|] eqn:Hxi; subst hi; simpl.
  { intros [= <-]. destruct t; by rewrite app_nil_r. }
  rewrite (proj2 (getattr_Ok _ _ _) Hxt). simpl.
  destruct t as [| | |s| | |]; simpl; try done.
  destruct (nonempty (strip s)); intros [= <-]; simpl; by rewrite ?app_nil_r.
Qed.

Lemma lines_of_app (fs1 fs2 : list str) :
  lines_of (fs1 ++ fs2) = lines_of fs1 ++ lines_of fs2.
Proof. unfold lines_of. by rewrite fmap_app, concat_app. Qed.

Lemma scan_blocks_Ok (g g' : str) (blocks : list pyval) :
  scan_blocks g blocks = Ok g' →
  g' = g ++ lines_of (omap text_fragment blocks).
Proof.
  revert g. induction blocks as [|b blocks IH]; intros g; simpl.
  - intros [= <-]. by rewrite app_nil_r.
  - destruct (scan_block g b) as [g1|] eqn:Hb; simpl; [|done].
    apply scan_block_Ok in Hb as ->. intros ->%IH.
    rewrite <-app_assoc. f_equal.
    destruct (text_fragment b) as [t|]; simpl; [|done].
    symmetry. apply (lines_of_app [t]).
Qed.

(** ** Entries of the transcript *)

Lemma render_attrs_recordable (m : object) (names : list str) (entry : str) :
  forallb (λ a, is_private a || reads_safely m a) names = true →
  render_attrs m names entry = Ok (entry ++ concat (field_lines m <$> names)).
Proof.
  revert entry. induction names as [|a names IH]; intros entry; simpl.
  - intros _. by rewrite app_nil_r.
  - intros [Ha Hrest]%andb_prop. unfold field_lines at 1.
    destruct (is_private a); simpl in *; [by apply IH|].
    unfold reads_safely in Ha. unfold getattr_default.
    destruct (getattr m a) as [v|e]; simpl.
    + destruct (py_callable v); [by apply IH|].
      destruct (render_value a v) as [text|e]; rewrite IH by done;
        by rewrite <-app_assoc.
    + rewrite Ha. simpl. rewrite IH by done. by rewrite <-app_assoc.
Qed.

(** An entry of a recordable message: the header with the ordinal and the
    class, the lines of every attribute in [dir()] order, the footer. *)
Lemma render_entry_recordable (n : nat) (m : object) :
  recordable m = true → render_entry n m = Ok (entry_of n m).
Proof.
  intros Hm. unfold render_entry, entry_of.
  rewrite render_attrs_recordable by done. simpl. by rewrite <-app_assoc.
Qed.

(** The recorder returns on recordable messages only. *)
Lemma render_attrs_Ok (m : object) (names : list str) (entry e : str) :
  render_attrs m names entry = Ok e →
  forallb (λ a, is_private a || reads_safely m a) names = true.
Proof.
  revert entry. induction names as [|a names IH]; intros entry; simpl; [done|].
  destruct (is_private a); simpl; [by apply IH|].
  unfold reads_safely, getattr_default.
  destruct (getattr m a) as [v|ex]; simpl.
  - destruct (py_callable v); [by apply IH|].
    destruct (render_value a v); by apply IH.
  - destruct (is_AttributeError ex); simpl; [by apply IH|done].
Qed.

Lemma render_entry_Ok (n : nat) (m : object) (e : str) :
  render_entry n m = Ok e → recordable m = true ∧ e = entry_of n m.
Proof.
  intros He. assert (Hm : recordable m = true).
  { unfold render_entry in He.
    destruct (render_attrs m (obj_attrs m).*1 (entry_header n m)) eqn:Hr;
      [|done].
    by eapply render_attrs_Ok. }
  split; [done|]. rewrite render_entry_recordable in He by done. congruence.
Qed.

Lemma assoc_Some_elem {A} (name : str) (l : list (str * A)) (a : A) :
  assoc name l = Some a → a ∈ l.*2.
Proof.
  induction l as [|[k b] l IH]; simpl; [done|].
  destruct (decide (k = name)).
  - intros [= ->]. apply elem_of_cons. by left.
  - intros H. apply elem_of_cons. right. by apply IH.
Qed.

Lemma readable_getattr (o : object) (name : str) :
  readable o = true →
  getattr o name = match exposed o name with
                   | Some v => Ok v
                   | None => Raise (no_attribute o name)
                   end.
Proof.
  unfold readable, getattr, exposed. intros Hr.
  destruct (assoc name (obj_attrs o)) as [[v|e]|] eqn:Ha; [done| |done].
  apply assoc_Some_elem in Ha.
  rewrite forallb_forall in Hr. apply list_elem_of_In, Hr in Ha. done.
Qed.

Lemma readable_recordable (m : object) : readable m = true → recordable m = true.
Proof.
  intros Hr. unfold recordable. apply forallb_forall. intros a _.
  unfold reads_safely. rewrite readable_getattr by done.
  destruct (exposed m a); simpl; apply orb_true_r.
Qed.

(** ** One message of the stream *)

(** When the [if]/[elif] returns, it has adopted the message's result or
    appended the message's fragments. *)
Lemma inspect_message_Ok (g f g' f' : str) (m : object) :
  inspect_message g f m = Ok (g', f') →
  g' = g ++ lines_of (fragments m) ∧ f' = default f (adopted_result m).
Proof.
  unfold inspect_message, fragments, adopted_result, truthy_result.
  destruct (has_truthy m (pystr "result")) as [hr|] eqn:Hr; simpl; [|done].
  apply has_truthy_Ok in Hr.
  destruct (exposed m (pystr "result")) as [r|] eqn:Hxr.
  - subst hr. destruct (py_truthy r) eqn:Htr.
    + rewrite (proj2 (getattr_Ok _ _ _) Hxr). simpl.
      destruct (nonempty (strip (py_str r))); intros [= <- <-];
        by rewrite app_nil_r.
    + destruct (has_truthy m (pystr "content")) as [hc|] eqn:Hc; simpl; [|done].
      apply has_truthy_Ok in Hc.
      destruct (exposed m (pystr "content")) as [c|] eqn:Hxc; subst hc.
      2:{ intros [= <- <-]. by rewrite app_nil_r. }
      destruct (py_truthy c) eqn:Htc.
      2:{ intros [= <- <-]. destruct c as [| | | |[|b bs] ?| |]; simpl in *;
            by rewrite ?app_nil_r. }
      rewrite (proj2 (getattr_Ok _ _ _) Hxc). simpl.
      destruct c as [| | | |blocks ?| |]; try (intros [= <- <-]; by rewrite app_nil_r).
      destruct (scan_blocks g blocks) as [g1|] eqn:Hb; simpl; [|done].
      apply scan_blocks_Ok in Hb as ->. by intros [= <- <-].
  - subst hr.
    destruct (has_truthy m (pystr "content")) as [hc|] eqn:Hc; simpl; [|done].
    apply has_truthy_Ok in Hc.
    destruct (exposed m (pystr "content")) as [c|] eqn:Hxc; subst hc.
    2:{ intros [= <- <-]. by rewrite app_nil_r. }
    destruct (py_truthy c) eqn:Htc.
    2:{ intros [= <- <-]. destruct c as [| | | |[|b bs] ?| |]; simpl in *;
          by rewrite ?app_nil_r. }
    rewrite (proj2 (getattr_Ok _ _ _) Hxc). simpl.
    destruct c as [| | | |blocks ?| |]; try (intros [= <- <-]; by rewrite app_nil_r).
    destruct (scan_blocks g blocks) as [g1|] eqn:Hb; simpl; [|done].
    apply scan_blocks_Ok in Hb as ->. by intros [= <- <-].
Qed.

Lemma readable_hasattr (o : object) (name : str) :
  readable o = true →
  hasattr o name = Ok (match exposed o name with Some _ => true | None => false end).
Proof.
  intros Hr. unfold hasattr. rewrite readable_getattr by done.
  by destruct (exposed o name).
Qed.

Lemma readable_has_truthy (o : object) (name : str) :
  readable o = true → ∃ b, has_truthy o name = Ok b.
Proof.
  intros Hr. unfold has_truthy. rewrite readable_hasattr by done.
  destruct (exposed o name) as [v|] eqn:Hx; simpl; [|by eexists].
  rewrite readable_getattr, Hx by done. by eexists.
Qed.

Lemma plain_scan_block (g : str) (block : pyval) :
  plain_block block = true → ∃ g', scan_block g block = Ok g'.
Proof.
  unfold plain_block, scan_block.
  destruct block as [| | | | | |o]; simpl; try by eexists.
  intros [Hr Ht]%andb_prop. rewrite !readable_hasattr by done.
  destruct (exposed o (pystr "text")) as [t|] eqn:Hxt; simpl; [|by eexists].
  destruct (exposed o (pystr "id")); simpl; [by eexists|].
  rewrite readable_getattr, Hxt by done. simpl.
  destruct t; try done. simpl. destruct (nonempty (strip s)); by eexists.
Qed.

Lemma plain_scan_blocks (g : str) (blocks : list pyval) :
  forallb plain_block blocks = true → ∃ g', scan_blocks g blocks = Ok g'.
Proof.
  revert g. induction blocks as [|b blocks IH]; intros g; simpl; [by eexists|].
  intros [Hb Hrest]%andb_prop.
  destruct (plain_scan_block g b Hb) as [g1 ->]. simpl. by apply IH.
Qed.

Lemma plain_inspect_message (g f : str) (m : object) :
  plain_message m = true → ∃ r, inspect_message g f m = Ok r.
Proof.
  unfold plain_message, inspect_message. intros [Hr Hc]%andb_prop.
  destruct (readable_has_truthy m (pystr "result") Hr) as [hr Hhr].
  rewrite Hhr. simpl. destruct hr.
  - assert (∃ v, getattr m (pystr "result") = Ok v) as [v ->].
    { rewrite readable_getattr by done. apply has_truthy_Ok in Hhr.
      destruct (exposed m (pystr "result")); [by eexists|done]. }
    simpl. destruct (nonempty (strip (py_str v))); by eexists.
  - destruct (readable_has_truthy m (pystr "content") Hr) as [hc Hhc].
    rewrite Hhc. simpl. destruct hc; [|by eexists].
    apply has_truthy_Ok in Hhc. rewrite readable_getattr by done.
    destruct (exposed m (pystr "content")) as [c|]; [|done]. simpl.
    destruct c as [| | | |blocks ?| |]; try by eexists.
    destruct (plain_scan_blocks g blocks Hc) as [g' ->]. by eexists.
Qed.

(** ** The receive loop *)

Lemma loop_body_None (st st' : loop_state) (m : object) :
  loop_body st m = (st', None) →
  generated_content st' = generated_content st ++ lines_of (fragments m)
  ∧ final_result_content st'
    = default (final_result_content st) (adopted_result m)
  ∧ message_count st' = S (message_count st)
  ∧ ∃ entry, full_conversation (tracker st')
             = full_conversation (tracker st) ++ [entry]
             ∧ render_entry (S (message_count st)) m = Ok entry.
Proof.
  unfold loop_body, add_message_to_transcript.
  destruct (render_entry (S (message_count st)) m) as [entry|]; simpl; [|done].
  destruct (inspect_message _ _ m) as [[g f]|] eqn:Hi; [|done].
  intros [= <-]. simpl. apply inspect_message_Ok in Hi as [-> ->].
  split_and!; [done..|by eexists].
Qed.

Lemma default_last_cons {A} (d x : A) (l : list A) :
  default d (last (x :: l)) = default x (last l).
Proof. rewrite last_cons. by destruct (last l). Qed.

Lemma receive_loop_None (st st' : loop_state) (msgs : list object)
    (failure : option exn) :
  receive_loop st msgs failure = (st', None) →
  failure = None
  ∧ generated_content st'
    = generated_content st ++ lines_of (msgs ≫= fragments)
  ∧ final_result_content st'
    = default (final_result_content st) (last (omap adopted_result msgs)).
Proof.
  revert st. induction msgs as [|m msgs IH]; intros st; simpl.
  - intros [= <- ->]. by rewrite app_nil_r.
  - destruct (loop_body st m) as [st1 [e|]] eqn:Hb; [done|].
    apply loop_body_None in Hb as (Hg & Hf & _).
    intros (-> & -> & ->)%IH. rewrite Hg, Hf, lines_of_app, <-app_assoc.
    split_and!; [done..|].
    destruct (adopted_result m) as [r|]; simpl; [|done].
    by rewrite default_last_cons.
Qed.

(** ** The final text *)

Lemma strip_app_spaces (s t : str) :
  forallb is_space t = true → strip (s ++ t) = strip s.
Proof.
  intros Ht. destruct (strip_trimmed s) as (l & r & Hs & Hl & Hr & Hh & Hlast).
  rewrite Hs at 1. rewrite <-!app_assoc.
  apply strip_unique; [done| |done..]. by rewrite forallb_app, Hr, Ht.
Qed.

Lemma lines_of_join (f : str) (fs : list str) :
  lines_of (f :: fs) = join_lines (f :: fs) ++ nl.
Proof.
  revert f. induction fs as [|f' fs IH]; intros f.
  - unfold lines_of. simpl. by rewrite app_nil_r.
  - change (lines_of (f :: f' :: fs)) with ((f ++ nl) ++ lines_of (f' :: fs)).
    rewrite IH. simpl. by rewrite <-!app_assoc.
Qed.

Lemma adopted_result_nonempty (m : object) (r : str) :
  adopted_result m = Some r → nonempty r = true.
Proof.
  unfold adopted_result. destruct (truthy_result m) as [v|]; [|done].
  destruct (nonempty (strip (py_str v))) eqn:Hn; [|done]. by intros [= <-].
Qed.

Lemma last_adopted_nonempty (msgs : list object) (r : str) :
  last (omap adopted_result msgs) = Some r → nonempty r = true.
Proof.
  intros Hl%last_Some_elem_of. apply list_elem_of_omap in Hl as (m & _ & Hm).
  by eapply adopted_result_nonempty.
Qed.

(** Lines 188-193 on the state the loop leaves. *)
Lemma choose_final_text (st : loop_state) (msgs : list object) :
  generated_content st = lines_of (msgs ≫= fragments) →
  final_result_content st = default [] (last (omap adopted_result msgs)) →
  choose_final st = final_text msgs.
Proof.
  intros Hg Hf. unfold choose_final, final_text. rewrite Hg, Hf.
  destruct (last (omap adopted_result msgs)) as [r|] eqn:Hl;
    cbn [default from_option id].
  - by rewrite (last_adopted_nonempty _ _ Hl).
  - destruct (msgs ≫= fragments) as [|f fs]; [done|]. cbn [nonempty].
    rewrite lines_of_join. generalize (join_lines (f :: fs)). intros joined.
    replace (nonempty (joined ++ nl)) with true by (by destruct joined).
    by apply strip_app_spaces.
Qed.

Lemma strip_tidy (s : str) : nonempty (strip s) = true → tidy (strip s).
Proof.
  intros Hn. destruct (strip_trimmed s) as (l & t & _ & _ & _ & Hh & Hl).
  split_and!; [|done..]. by destruct (strip s).
Qed.

Lemma text_fragment_tidy (block : pyval) (f : str) :
  text_fragment block = Some f → tidy f.
Proof.
  unfold text_fragment. destruct block as [| | | | | |o]; try done.
  destruct (exposed o (pystr "text")) as [[| | |s| | |]|]; try done.
  destruct (exposed o (pystr "id")); [done|].
  destruct (nonempty (strip s)) eqn:Hn; [|done]. intros [= <-].
  by apply strip_tidy.
Qed.

Lemma fragments_tidy (msgs : list object) : Forall tidy (msgs ≫= fragments).
Proof.
  apply Forall_forall. intros f (m & Hf & _)%list_elem_of_bind.
  unfold fragments in Hf. destruct (truthy_result m).
  { by apply elem_of_nil in Hf. }
  destruct (exposed m (pystr "content")) as [[| | | |blocks ?| |]|];
    try by apply elem_of_nil in Hf.
  apply list_elem_of_omap in Hf as (b & _ & Hb). by eapply text_fragment_tidy.
Qed.

Lemma join_lines_tidy (f : str) (fs : list str) :
  Forall tidy (f :: fs) → tidy (join_lines (f :: fs)).
Proof.
  revert f. induction fs as [|f' fs IH]; intros f Hall.
  - by apply Forall_inv in Hall.
  - apply Forall_cons in Hall as [(Hne & Hh & Hl) Hrest].
    destruct (IH f' Hrest) as (Hne' & Hh' & Hl').
    change (join_lines (f :: f' :: fs)) with (f ++ nl ++ join_lines (f' :: fs)).
    split_and!.
    + by destruct f.
    + intros c Hc. apply Hh. by destruct f.
    + intros c Hc. apply Hl'. rewrite !last_app in Hc.
      destruct (last (join_lines (f' :: fs))) eqn:Hlast; [done|].
      by apply last_None in Hlast.
Qed.

(** Joined fragments are already stripped. *)
Lemma strip_join_lines (fs : list str) :
  Forall tidy fs → strip (join_lines fs) = join_lines fs.
Proof.
  destruct fs as [|f fs]; [done|]. intros (_ & Hh & Hl)%join_lines_tidy.
  rewrite <-(app_nil_r (join_lines (f :: fs))) at 1.
  by apply (strip_unique [] _ []).
Qed.

Lemma plain_receive_loop (st : loop_state) (msgs : list object) :
  forallb plain_message msgs = true →
  ∃ st', receive_loop st msgs None = (st', None).
Proof.
  revert st. induction msgs as [|m msgs IH]; intros st; simpl; [by eexists|].
  intros [Hm Hmsgs]%andb_prop.
  unfold loop_body, add_message_to_transcript.
  rewrite render_entry_recordable
    by (apply readable_recordable; by apply andb_prop in Hm as [? _]).
  simpl.
  destruct (plain_inspect_message (generated_content st)
              (final_result_content st) m Hm) as [[g f] ->].
  by apply IH.
Qed.

(** C1, as the code has it.  When [generate_with_sdk] returns, its text is
    the most recent non-empty stripped string form of a truthy [result]
    field; else the stripped fragments of the messages without a truthy
    result, in arrival order, joined by newlines and stripped; else the
    sentinel.  It returns on every stream that ends after messages whose
    attributes read without raising and whose text blocks hold strings.
    Stripping the joined fragments changes nothing: each fragment is
    stripped and not empty. *)
Theorem generate_with_sdk_final_text (use_mcp mcp_server_found : bool)
    (engine : stream) :
  (∀ text tr,
     generate_with_sdk use_mcp mcp_server_found engine = Ok (text, tr) →
     text = final_text (messages engine))
  ∧ ((use_mcp = true → mcp_server_found = true) →
     failure engine = None →
     forallb plain_message (messages engine) = true →
     ∃ tr, generate_with_sdk use_mcp mcp_server_found engine
           = Ok (final_text (messages engine), tr))
  ∧ strip (join_lines (messages engine ≫= fragments))
    = join_lines (messages engine ≫= fragments).
Proof.
  assert (Hret : ∀ text tr,
     generate_with_sdk use_mcp mcp_server_found engine = Ok (text, tr) →
     text = final_text (messages engine)).
  { intros text tr. unfold generate_with_sdk, session_state.
    destruct (use_mcp && negb mcp_server_found); [done|].
    destruct (receive_loop initial_state (messages engine) (failure engine))
      as [st [e|]] eqn:Hl; [done|].
    intros [= <- <-]. apply receive_loop_None in Hl as (_ & Hg & Hf).
    by apply choose_final_text. }
  split_and!; [exact Hret| |apply strip_join_lines, fragments_tidy].
  intros Hcfg Hfail Hplain.
  assert (∃ r, generate_with_sdk use_mcp mcp_server_found engine = Ok r)
    as [[text tr] Hr].
  { unfold generate_with_sdk, session_state.
    replace (use_mcp && negb mcp_server_found) with false
      by (destruct use_mcp; [by rewrite Hcfg|done]).
    rewrite Hfail.
    destruct (plain_receive_loop initial_state _ Hplain) as [st' ->].
    by eexists. }
  exists tr. by rewrite Hr, (Hret _ _ Hr).
Qed.

Lemma generate_with_sdk_final_text_witness :
  (generate_with_sdk false false answered_session
     = Ok (pystr "done", mkTracker
             [entry_of 1 (AssistantMessage [TextBlock (pystr " let me look "); ToolUseBlock (pystr "t1") (pystr "search")]);
              entry_of 2 (ResultMessage (PyStr (pystr " done ")))]) ∧
   pystr "done" = final_text (messages answered_session))
  ∧ ((false = true → false = true) ∧ failure answered_session = None
     ∧ forallb plain_message (messages answered_session) = true
     ∧ ∃ tr, generate_with_sdk false false answered_session
             = Ok (final_text (messages answered_session), tr)).
Proof.
  destruct (generate_with_sdk_final_text false false answered_session)
    as (Hret & Hok & _).
  split.
  - split; [vm_compute; reflexivity|].
    apply (Hret _ (mkTracker
             [entry_of 1 (AssistantMessage [TextBlock (pystr " let me look "); ToolUseBlock (pystr "t1") (pystr "search")]);
              entry_of 2 (ResultMessage (PyStr (pystr " done ")))])).
    vm_compute; reflexivity.
  - split_and!; [done | reflexivity | vm_compute; reflexivity |].
    apply Hok; [done | reflexivity | vm_compute; reflexivity].
Defined.

(** Scenario B: a stream without messages gives the sentinel and an empty
    transcript. *)
Example generate_with_sdk_no_messages :
  generate_with_sdk false false (mkStream [] None)
  = Ok (pystr "-- No content generated --", mkTracker []).
Proof. reflexivity. Qed.

(** Fragments alone: joined by newlines, each stripped. *)
Example generate_with_sdk_fragments :
  ∃ tr, generate_with_sdk false false
          (mkStream [AssistantMessage [TextBlock (pystr " one "); TextBlock (pystr "  ")];
                     AssistantMessage [TextBlock (pystr "two")];
                     ResultMessage PyNone] None)
        = Ok (pystr "one" ++ nl ++ pystr "two", tr).
Proof. eexists. vm_compute. reflexivity. Qed.

(** C1, as stated, fails: a [result] field that is falsy is not adopted
    even when its string form is not empty.  With [result = 0] after a
    text block the code returns the block's text, and with [result = None]
    likewise, where the claim gives ["0"] and ["None"]. *)
Lemma falsy_result_not_adopted :
  (∃ tr, generate_with_sdk false false
           (mkStream [AssistantMessage [TextBlock (pystr "draft")];
                      ResultMessage (PyInt 0)] None)
         = Ok (pystr "draft", tr))
  ∧ final_text_any_result
      [AssistantMessage [TextBlock (pystr "draft")];
       ResultMessage (PyInt 0)] = pystr "0"
  ∧ (∃ tr, generate_with_sdk false false
             (mkStream [AssistantMessage [TextBlock (pystr "draft")];
                        ResultMessage PyNone] None)
           = Ok (pystr "draft", tr))
  ∧ final_text_any_result
      [AssistantMessage [TextBlock (pystr "draft")];
       ResultMessage PyNone] = pystr "None".
Proof.
  split_and!; try (eexists; vm_compute; reflexivity); vm_compute; reflexivity.
Qed.

(** C10. A message whose [result] attribute is truthy but strips to the
    empty string is neither adopted nor scanned for text: the [if]/[elif]
    returns both accumulators unchanged, whatever content blocks the
    message has, so the final text of a stream is the same with and
    without the message. *)
Theorem blank_result_contributes_nothing (m : object) :
  blank_result m →
  (∀ g f, inspect_message g f m = Ok (g, f))
  ∧ (∀ st, generated_content (loop_body st m).1 = generated_content st
           ∧ final_result_content (loop_body st m).1 = final_result_content st)
  ∧ (∀ before after,
       final_text (before ++ m :: after) = final_text (before ++ after)).
Proof.
  intros (v & Hx & Hv & Hs).
  assert (Hi : ∀ g f, inspect_message g f m = Ok (g, f)).
  { intros g f. unfold inspect_message, has_truthy, hasattr.
    rewrite !(proj2 (getattr_Ok _ _ _) Hx). simpl. rewrite Hv. simpl.
    by rewrite Hs. }
  assert (Ha : adopted_result m = None).
  { unfold adopted_result, truthy_result. by rewrite Hx, Hv, Hs. }
  assert (Hf : fragments m = []).
  { unfold fragments, truthy_result. by rewrite Hx, Hv. }
  split_and!; [exact Hi | |].
  - intros st. unfold loop_body.
    destruct (add_message_to_transcript _ _ m); [|done]. by rewrite Hi.
  - intros before after. unfold final_text.
    rewrite !omap_app, !bind_app. simpl. by rewrite Ha, Hf.
Qed.

Lemma blank_result_contributes_nothing_witness :
  blank_result (ReplyMessage (PyStr (pystr "   ")) [TextBlock (pystr "ignored")])
  ∧ inspect_message (pystr "kept") (pystr "earlier result")
      (ReplyMessage (PyStr (pystr "   ")) [TextBlock (pystr "ignored")])
    = Ok (pystr "kept", pystr "earlier result").
Proof.
  assert (Hb : blank_result
                 (ReplyMessage (PyStr (pystr "   ")) [TextBlock (pystr "ignored")])).
  { exists (PyStr (pystr "   ")). split_and!; vm_compute; reflexivity. }
  split; [exact Hb|].
  apply (proj1 (blank_result_contributes_nothing _ Hb)).
Defined.

(** ** The transcript of a session *)

(** For recordable messages the tracker holds, whenever the loop is left,
    one entry per message consumed, in arrival order, numbered from the
    count the loop started with.  The loop is left after all messages
    unless something raised. *)
Lemma receive_loop_entries (st st' : loop_state) (msgs : list object)
    (failure r : option exn) :
  forallb recordable msgs = true →
  receive_loop st msgs failure = (st', r) →
  ∃ k, k ≤ length msgs
    ∧ message_count st' = message_count st + k
    ∧ full_conversation (tracker st')
      = full_conversation (tracker st)
        ++ zip_with entry_of (seq (S (message_count st)) k) (take k msgs)
    ∧ (r = None → k = length msgs).
Proof.
  revert st. induction msgs as [|m msgs IH]; intros st; simpl.
  - intros _ [= <- <-]. exists 0. simpl. rewrite app_nil_r.
    split_and!; [lia..|done|done].
  - intros [Hm Hmsgs]%andb_prop. unfold loop_body, add_message_to_transcript.
    rewrite render_entry_recordable by done. simpl.
    destruct (inspect_message _ _ m) as [[g f]|e].
    + intros Hl. destruct (IH _ Hmsgs Hl) as (k & Hk & Hc & Ht & Hr).
      simpl in *. exists (S k). split_and!; [lia..| |naive_solver].
      rewrite Ht, <-app_assoc. done.
    + intros [= <- <-]. exists 1. simpl. split_and!; [lia..|done|done].
Qed.

(** A transcript that [generate_with_sdk] returns holds one entry per
    message of the stream, in arrival order, numbered from 1. *)
Lemma receive_loop_recordable (st st' : loop_state) (msgs : list object)
    (failure : option exn) :
  receive_loop st msgs failure = (st', None) →
  forallb recordable msgs = true.
Proof.
  revert st. induction msgs as [|m msgs IH]; intros st; simpl; [done|].
  unfold loop_body, add_message_to_transcript.
  destruct (render_entry (S (message_count st)) m) as [entry|] eqn:He;
    simpl; [|done].
  apply render_entry_Ok in He as [-> _].
  destruct (inspect_message _ _ m) as [[g f]|]; [|done]. apply IH.
Qed.

Lemma generate_with_sdk_transcript (use_mcp mcp_server_found : bool)
    (engine : stream) (text : str) (tr : ConversationTracker) :
  generate_with_sdk use_mcp mcp_server_found engine = Ok (text, tr) →
  full_conversation tr
  = zip_with entry_of (seq 1 (length (messages engine))) (messages engine).
Proof.
  unfold generate_with_sdk, session_state.
  destruct (use_mcp && negb mcp_server_found); [done|].
  destruct (receive_loop initial_state (messages engine) (failure engine))
    as [st [e|]] eqn:Hl; [done|].
  intros [= _ <-].
  pose proof (receive_loop_recordable _ _ _ _ Hl) as Hrec.
  destruct (receive_loop_entries _ _ _ _ _ Hrec Hl) as (k & _ & _ & Ht & Hk).
  rewrite Ht, (Hk eq_refl), firstn_all. done.
Qed.

(** C6, on the failing input.  The stream yields one message one of whose
    properties raises [RuntimeError] when read: the message is counted,
    the unguarded read of line 42 raises out of the recorder, and the
    session ends with one message observed and no entry. *)
Theorem unreadable_field_loses_entry :
  let e := mkExn OtherError (pystr "usage is not available") in
  session_state (mkStream [UnreadableMessage e] None)
  = (mkLoop [] [] 1 (mkTracker []), Some e).
Proof. vm_compute. reflexivity. Qed.

(** C7, on the failing input.  Reading the property [usage] raises
    [RuntimeError]; the guard of line 42 reads it outside the [try], so
    rendering the entry raises, nothing is appended, and
    [generate_with_sdk] raises.  The same message whose property raises
    [AttributeError] gets its entry, with the error note in place of the
    value. *)
Theorem unreadable_field_aborts_entry :
  let e := mkExn OtherError (pystr "usage is not available") in
  let a := mkExn AttributeError (pystr "usage is not available") in
  render_entry 1 (UnreadableMessage e) = Raise e
  ∧ add_message_to_transcript (mkTracker []) 1 (UnreadableMessage e) = Raise e
  ∧ generate_with_sdk false false (mkStream [UnreadableMessage e] None)
    = Raise e
  ∧ render_entry 1 (UnreadableMessage a)
    = Ok (pystr "=== Message 1: PartialMessage ===" ++ nl
          ++ pystr "model: claude" ++ nl
          ++ pystr "usage: <error accessing: usage is not available>" ++ nl
          ++ nl ++ replicate 80 61%N ++ nl ++ nl).
Proof. split_and!; vm_compute; reflexivity. Qed.

(** An entry as the recorder renders it: scalars inline, a list with its
    length and one line per item, a dict as its dump, [None] and methods
    left out. *)
Example render_entry_assistant :
  render_entry 3 (AssistantMessage [TextBlock (pystr "hi"); ToolUseBlock (pystr "t1") (pystr "search")])
  = Ok (pystr "=== Message 3: AssistantMessage ===" ++ nl
        ++ pystr "content: [2 items]" ++ nl
        ++ pystr "  [0]: TextBlock(text='hi')" ++ nl
        ++ pystr "  [1]: ToolUseBlock(id='t1', name='search', input={})" ++ nl
        ++ pystr "model: claude" ++ nl
        ++ nl ++ replicate 80 61%N ++ nl ++ nl).
Proof. vm_compute. reflexivity. Qed.

(** ** Cleaning up *)

Section Cleanup.
  Context (p : path) (retries : Z) (delay : Q).

Lemma sleeps_rounds (attempts : list Z) :
  sleeps (attempts ≫= retry_round p delay) = replicate (length attempts) delay.
Proof. induction attempts as [|a l IH]; simpl; [done|]. by f_equal. Qed.

Lemma warned_rounds (attempts : list Z) (rest : list event) :
  warned ((attempts ≫= retry_round p delay) ++ rest) = warned rest.
Proof. induction attempts as [|a l IH]; simpl; done. Qed.

Lemma forced_rounds (attempts : list Z) (rest : list event) :
  forced ((attempts ≫= retry_round p delay) ++ rest) = forced rest.
Proof. induction attempts as [|a l IH]; simpl; done. Qed.

(** The attempts succeed once the directory is no longer busy, when
    enough attempts are left for that. *)
Lemma cleanup_attempts_succeed (busy n a : nat) (fs : gmap (list N) nat) :
  fs !! p = Some busy → busy < n → (Z.of_nat (a + busy) < retries)%Z →
  cleanup_attempts p retries delay (Z.of_nat <$> seq a n) fs
  = (Ok true, delete p fs,
     ((Z.of_nat <$> seq a busy) ≫= retry_round p delay) ++ [Rmtree p false]).
Proof.
  revert n a fs. induction busy as [|busy IH]; intros n a fs Hp Hn Ha;
    (destruct n as [|n]; [lia|]); simpl; unfold rmtree; rewrite Hp.
  - done.
  - simpl. replace (Z.of_nat a <? retries - 1)%Z with true by lia.
    rewrite (IH n (S a) (<[p:=busy]> fs)); [|by rewrite lookup_insert_eq|lia..].
    by rewrite delete_insert_eq.
Qed.

Lemma cleanup_attempts_cons (attempt : Z) (rest : list Z) (fs : gmap (list N) nat) :
  cleanup_attempts p retries delay (attempt :: rest) fs
  = match fs !! p with
    | Some O => (Ok true, delete p fs, [Rmtree p false])
    | Some (S k) =>
        if (attempt <? retries - 1)%Z then
          let '(r, fs'', log) :=
            cleanup_attempts p retries delay rest (<[p:=k]> fs) in
          (r, fs'', retry_round p delay attempt ++ log)
        else (Ok false, rmtree_ignore_errors p (<[p:=k]> fs),
              giving_up p PermissionError)
    | None =>
        if (attempt <? retries - 1)%Z then
          let '(r, fs'', log) := cleanup_attempts p retries delay rest fs in
          (r, fs'', retry_round p delay attempt ++ log)
        else (Ok false, rmtree_ignore_errors p fs,
              giving_up p FileNotFoundError)
    end.
Proof. simpl. unfold rmtree. by destruct (fs !! p) as [[|k]|]. Qed.

(** The attempts give up when the directory stays busy through all of
    them, or does not exist. *)
Lemma cleanup_attempts_give_up (n a : nat) (fs : gmap (list N) nat) :
  (Z.of_nat (a + S n) = retries)%Z →
  match fs !! p with
  | Some busy =>
      S n ≤ busy →
      cleanup_attempts p retries delay (Z.of_nat <$> seq a (S n)) fs
      = (Ok false, rmtree_ignore_errors p (<[p := busy - S n]> fs),
         ((Z.of_nat <$> seq a n) ≫= retry_round p delay)
         ++ giving_up p PermissionError)
  | None =>
      cleanup_attempts p retries delay (Z.of_nat <$> seq a (S n)) fs
      = (Ok false, fs,
         ((Z.of_nat <$> seq a n) ≫= retry_round p delay)
         ++ giving_up p FileNotFoundError)
  end.
Proof.
  revert a fs. induction n as [|n IH]; intros a fs Ha.
  - destruct (fs !! p) as [busy|] eqn:Hp; [intros Hb|];
      simpl; unfold rmtree; rewrite Hp.
    + destruct busy as [|busy]; [lia|]. simpl.
      replace (Z.of_nat a <? retries - 1)%Z with false by lia.
      by rewrite Nat.sub_0_r.
    + simpl. replace (Z.of_nat a <? retries - 1)%Z with false by lia.
      unfold rmtree_ignore_errors. by rewrite Hp.
  - specialize (IH (S a)).
    change (Z.of_nat <$> seq a (S (S n)))
      with (Z.of_nat a :: (Z.of_nat <$> seq (S a) (S n))).
    change (Z.of_nat <$> seq a (S n))
      with (Z.of_nat a :: (Z.of_nat <$> seq (S a) n)).
    rewrite cleanup_attempts_cons.
    destruct (fs !! p) as [busy|] eqn:Hp; [intros Hb|].
    + destruct busy as [|busy]; [lia|].
      replace (Z.of_nat a <? retries - 1)%Z with true by lia.
      specialize (IH (<[p:=busy]> fs)). rewrite lookup_insert_eq in IH.
      rewrite IH by lia. by rewrite insert_insert_eq.
    + replace (Z.of_nat a <? retries - 1)%Z with true by lia.
      specialize (IH fs). rewrite Hp in IH. by rewrite IH by lia.
Qed.

Lemma cleanup_attempts_returns (attempts : list Z) (fs : gmap (list N) nat) :
  ∃ b fs' log,
    cleanup_attempts p retries delay attempts fs = (Ok b, fs', log).
Proof.
  revert fs. induction attempts as [|a attempts IH]; intros fs; simpl.
  - by do 3 eexists.
  - unfold rmtree. destruct (fs !! p) as [[|busy]|]; simpl.
    + by do 3 eexists.
    + destruct (a <? retries - 1)%Z; [|by do 3 eexists].
      destruct (IH (<[p:=busy]> fs)) as (b & fs' & log & ->). by do 3 eexists.
    + destruct (a <? retries - 1)%Z; [|by do 3 eexists].
      destruct (IH fs) as (b & fs' & log & ->). by do 3 eexists.
Qed.

End Cleanup.

Lemma range_length (n : Z) : length (range n) = Z.to_nat n.
Proof. unfold range. by rewrite length_fmap, length_seq. Qed.

(** Without attempts nothing is removed, slept or printed. *)
Lemma cleanup_directory_no_attempts (p : path) (retries : Z) (delay : Q)
    (fs : gmap (list N) nat) :
  (retries ≤ 0)%Z → cleanup_directory p retries delay fs = (Ok false, fs, []).
Proof.
  intros Hr. unfold cleanup_directory, range.
  by replace (Z.to_nat retries) with 0 by lia.
Qed.

(** C4, as the code has it.  On a directory whose removal fails [busy]
    times before it can succeed, [cleanup_directory] makes up to [retries]
    attempts and sleeps the same [delay] after each failed attempt but
    the last.  When an attempt within the budget succeeds it returns
    [True] with the directory gone, no warning and no forced removal.
    When all [retries] attempts fail it prints the warning, performs the
    forced removal and returns [False]. *)
Theorem cleanup_directory_retries (p : path) (retries : Z) (delay : Q)
    (fs : gmap (list N) nat) (busy : nat) :
  fs !! p = Some busy →
  ((Z.of_nat busy < retries)%Z →
   ∃ log,
     cleanup_directory p retries delay fs = (Ok true, delete p fs, log)
     ∧ log = (range (Z.of_nat busy) ≫= retry_round p delay) ++ [Rmtree p false]
     ∧ sleeps log = replicate busy delay
     ∧ warned log = false ∧ forced log = false)
  ∧ ((0 < retries ≤ Z.of_nat busy)%Z →
     ∃ log,
       cleanup_directory p retries delay fs
       = (Ok false,
          rmtree_ignore_errors p (<[p := busy - Z.to_nat retries]> fs), log)
       ∧ log = (range (retries - 1) ≫= retry_round p delay)
               ++ giving_up p PermissionError
       ∧ sleeps log = replicate (Z.to_nat retries - 1) delay
       ∧ warned log = true ∧ forced log = true).
Proof.
  intros Hp. split.
  - intros Hlt. eexists. split_and!; [|reflexivity|..].
    + unfold cleanup_directory, range.
      rewrite (cleanup_attempts_succeed p retries delay busy _ 0 fs Hp); [|lia..].
      by rewrite Nat2Z.id.
    + unfold sleeps. rewrite omap_app. fold (sleeps (range (Z.of_nat busy) ≫= retry_round p delay)).
      rewrite sleeps_rounds, range_length, Nat2Z.id. simpl. by rewrite app_nil_r.
    + by rewrite warned_rounds.
    + by rewrite forced_rounds.
  - intros [Hpos Hle]. eexists. split_and!; [|reflexivity|..].
    + unfold cleanup_directory, range.
      destruct (Z.to_nat retries) as [|n] eqn:Hn; [lia|].
      pose proof (cleanup_attempts_give_up p retries delay n 0 fs) as Hg.
      rewrite Hp in Hg. rewrite Hg by lia.
      by replace (Z.to_nat (retries - 1)) with n by lia.
    + unfold sleeps. rewrite omap_app. fold (sleeps (range (retries - 1) ≫= retry_round p delay)).
      rewrite sleeps_rounds, range_length. simpl. rewrite app_nil_r. f_equal. lia.
    + by rewrite warned_rounds.
    + by rewrite forced_rounds.
Qed.

(** Scenario D: the removal fails twice and succeeds on the third attempt. *)
Lemma cleanup_directory_retries_witness :
  ({[tmp := 2]} : gmap (list N) nat) !! tmp = Some 2 ∧ (Z.of_nat 2 < 3)%Z
  ∧ ∃ log,
      cleanup_directory tmp 3 1 {[tmp := 2]}
      = (Ok true, delete tmp {[tmp := 2]}, log)
      ∧ log = (range (Z.of_nat 2) ≫= retry_round tmp 1) ++ [Rmtree tmp false]
      ∧ sleeps log = replicate 2 1%Q
      ∧ warned log = false ∧ forced log = false.
Proof.
  split_and!; [apply lookup_singleton_eq | lia |].
  apply (cleanup_directory_retries tmp 3 1 {[tmp := 2]} 2);
    [apply lookup_singleton_eq | lia].
Defined.

(** C4, as stated, fails: the delays between the attempts do not
    increase.  With the defaults and a removal that fails twice the code
    sleeps one second each time. *)
Lemma cleanup_delay_is_constant :
  sleeps (cleanup_directory tmp default_retries default_delay {[tmp := 2]}).2
  = [1%Q; 1%Q]
  ∧ ¬ increasing
        (sleeps (cleanup_directory tmp default_retries default_delay
                   {[tmp := 2]}).2).
Proof.
  assert (Hs : sleeps (cleanup_directory tmp default_retries default_delay
                         {[tmp := 2]}).2 = [1%Q; 1%Q]).
  { unfold cleanup_directory, range, default_retries.
    rewrite (cleanup_attempts_succeed tmp 3 default_delay 2 3 0);
      [reflexivity | apply lookup_singleton_eq | lia | lia]. }
  split; [exact Hs|]. rewrite Hs. intros Hinc.
  specialize (Hinc 0 1%Q 1%Q eq_refl eq_refl). by apply Qlt_irrefl in Hinc.
Qed.

(** C5, as the code has it.  [cleanup_directory] never raises, on any
    state of the file system, so neither does a second call after a
    first.  On a path that does not exist every attempt fails with
    [FileNotFoundError]: the call sleeps through its retries, prints the
    cleanup warning, and returns [False]. *)
Theorem cleanup_directory_never_raises (p : path) (retries : Z) (delay : Q)
    (fs : gmap (list N) nat) :
  (∃ b fs' log,
     cleanup_directory p retries delay fs = (Ok b, fs', log)
     ∧ ∃ b2 fs2 log2,
         cleanup_directory p retries delay fs' = (Ok b2, fs2, log2))
  ∧ (fs !! p = None → (0 < retries)%Z →
     cleanup_directory p retries delay fs
     = (Ok false, fs,
        (range (retries - 1) ≫= retry_round p delay)
        ++ giving_up p FileNotFoundError)).
Proof.
  split.
  - unfold cleanup_directory.
    destruct (cleanup_attempts_returns p retries delay (range retries) fs)
      as (b & fs' & log & ->).
    exists b, fs', log. split; [done|].
    apply cleanup_attempts_returns.
  - intros Hp Hpos. unfold cleanup_directory, range.
    destruct (Z.to_nat retries) as [|n] eqn:Hn; [lia|].
    pose proof (cleanup_attempts_give_up p retries delay n 0 fs) as Hg.
    rewrite Hp in Hg. rewrite Hg by lia.
    by replace (Z.to_nat (retries - 1)) with n by lia.
Qed.

Lemma cleanup_directory_never_raises_witness :
  ((∅ : gmap (list N) nat) !! tmp = None ∧ (0 < 3)%Z)
  ∧ cleanup_directory tmp 3 1 ∅
    = (Ok false, ∅,
       (range (3 - 1) ≫= retry_round tmp 1) ++ giving_up tmp FileNotFoundError).
Proof.
  split; [split; [apply lookup_empty | lia]|].
  apply (proj2 (cleanup_directory_never_raises tmp 3 1 ∅));
    [apply lookup_empty | lia].
Defined.

(** C5, as stated, fails: a call on a path that is already removed is not
    treated as a success.  After a first call removed the directory, the
    second call with the defaults sleeps twice, prints the cleanup warning
    and returns [False]. *)
Lemma cleanup_of_removed_path_reports_failure :
  cleanup_directory tmp default_retries default_delay {[tmp := 0]}
  = (Ok true, ∅, [Rmtree tmp false])
  ∧ cleanup_directory tmp default_retries default_delay ∅
    = (Ok false, ∅,
       [Rmtree tmp false; PrintRetry 1 1; Sleep 1;
        Rmtree tmp false; PrintRetry 2 1; Sleep 1;
        Rmtree tmp false; PrintWarning FileNotFoundError; Rmtree tmp true])
  ∧ warned (cleanup_directory tmp default_retries default_delay ∅).2 = true.
Proof.
  assert (H1 : cleanup_directory tmp default_retries default_delay {[tmp := 0]}
               = (Ok true, ∅, [Rmtree tmp false])).
  { unfold cleanup_directory, range, default_retries.
    rewrite (cleanup_attempts_succeed tmp 3 default_delay 0 3 0);
      [|apply lookup_singleton_eq|lia..].
    by rewrite delete_singleton_eq. }
  assert (H2 : cleanup_directory tmp default_retries default_delay ∅
               = (Ok false, ∅,
       [Rmtree tmp false; PrintRetry 1 1; Sleep 1;
        Rmtree tmp false; PrintRetry 2 1; Sleep 1;
        Rmtree tmp false; PrintWarning FileNotFoundError; Rmtree tmp true])).
  { unfold cleanup_directory, range, default_retries.
    pose proof (cleanup_attempts_give_up tmp 3 default_delay 2 0 ∅) as Hg.
    rewrite lookup_empty in Hg. apply Hg. lia. }
  split_and!; [exact H1 | exact H2 | by rewrite H2].
Qed.

(** ** The result files *)

Lemma available_Some (section : option str) :
  available section = true ↔ ∃ s, section = Some s ∧ s ≠ [].
Proof.
  destruct section as [[|c s]|]; simpl; split; try done.
  - by intros (s & [= <-] & Hs).
  - intros _. by eexists.
  - by intros (s & [=] & _).
Qed.

Lemma has_entries_Some (tracker : option ConversationTracker) :
  has_entries tracker = true ↔ ∃ t, tracker = Some t ∧ full_conversation t ≠ [].
Proof.
  destruct tracker as [[[|e es]]|]; simpl; split; try done.
  - by intros (t & [= <-] & Ht).
  - intros _. by eexists.
  - by intros (t & [=] & _).
Qed.

Lemma write_results_written (results_dir : gmap string (list N))
    (content : str) (summary feedback response : option str)
    (tracker : option ConversationTracker) :
  (write_results results_dir content summary feedback response tracker).2
  = "output.txt"
    :: (if available summary then ["summary.md"] else [])
    ++ (if available feedback then ["feedback.md"] else [])
    ++ (if available response then ["response.txt"] else [])
    ++ (if has_entries tracker then ["transcript.md"] else []).
Proof.
  unfold write_results, write_file.
  by destruct (available summary), (available feedback),
    (available response), (has_entries tracker).
Qed.

(** Whether a file name is among the files written, by cases on which
    sections are there. *)
Ltac written_membership summary feedback response tracker :=
  destruct (available summary), (available feedback), (available response),
    (has_entries tracker);
  simpl; split; try done;
  let Hin := fresh "Hin" in
  intros Hin;
  repeat (apply elem_of_cons in Hin as [Hin|Hin]; [done|]);
  try (by apply elem_of_nil in Hin);
  repeat first [by apply list_elem_of_here | apply list_elem_of_further].

(** C8, as the code has it.  [write_results] always writes [output.txt]
    with the full final text.  It writes [summary.md] (after its heading)
    exactly when the summary is there and not empty, and likewise
    [feedback.md] (after its heading) and [response.txt] (raw); it writes
    [transcript.md] (after its heading and preamble) exactly when the
    tracker holds at least one entry.  No other file is touched. *)
Theorem write_results_files (results_dir : gmap string (list N))
    (content : str) (summary feedback response : option str)
    (tracker : option ConversationTracker) :
  let out := write_results results_dir content summary feedback response tracker in
  out.1 !! "output.txt" = Some content ∧ "output.txt" ∈ out.2
  ∧ ("summary.md" ∈ out.2 ↔ ∃ s, summary = Some s ∧ s ≠ [])
  ∧ (∀ s, summary = Some s → s ≠ [] →
       out.1 !! "summary.md" = Some (heading_summary ++ s))
  ∧ ("feedback.md" ∈ out.2 ↔ ∃ s, feedback = Some s ∧ s ≠ [])
  ∧ (∀ s, feedback = Some s → s ≠ [] →
       out.1 !! "feedback.md" = Some (heading_feedback ++ s))
  ∧ ("response.txt" ∈ out.2 ↔ ∃ s, response = Some s ∧ s ≠ [])
  ∧ (∀ s, response = Some s → s ≠ [] → out.1 !! "response.txt" = Some s)
  ∧ ("transcript.md" ∈ out.2
     ↔ ∃ t, tracker = Some t ∧ full_conversation t ≠ [])
  ∧ (∀ t, tracker = Some t → full_conversation t ≠ [] →
       out.1 !! "transcript.md" = Some (heading_transcript ++ get_transcript t))
  ∧ (∀ name, name ∉ out.2 → out.1 !! name = results_dir !! name).
Proof.
  intros out. subst out.
  rewrite <-!available_Some, <-has_entries_Some, write_results_written.
  assert (Hs : ∀ sec s, sec = Some s → s ≠ [] →
                        available sec = true ∧ default [] sec = s).
  { intros sec s -> Hs. by destruct s. }
  assert (Ht : ∀ tr t, tr = Some t → full_conversation t ≠ [] →
                       has_entries tr = true).
  { intros tr t -> Hne. simpl. by destruct (full_conversation t). }
  split_and!.
  - unfold write_results, write_file.
    destruct (available summary), (available feedback), (available response),
      (has_entries tracker); simpl; by simplify_map_eq.
  - apply elem_of_cons. by left.
  - clear. written_membership summary feedback response tracker.
  - intros s H1 H2. destruct (Hs _ _ H1 H2) as [Ha Hd].
    unfold write_results, write_file. rewrite Ha, Hd.
    destruct (available feedback), (available response),
      (has_entries tracker); simpl; by simplify_map_eq.
  - clear. written_membership summary feedback response tracker.
  - intros s H1 H2. destruct (Hs _ _ H1 H2) as [Ha Hd].
    unfold write_results, write_file. rewrite Ha, Hd.
    destruct (available summary), (available response),
      (has_entries tracker); simpl; by simplify_map_eq.
  - clear. written_membership summary feedback response tracker.
  - intros s H1 H2. destruct (Hs _ _ H1 H2) as [Ha Hd].
    unfold write_results, write_file. rewrite Ha, Hd.
    destruct (available summary), (available feedback),
      (has_entries tracker); simpl; by simplify_map_eq.
  - clear. written_membership summary feedback response tracker.
  - intros t H1 H2. pose proof (Ht _ _ H1 H2) as Ha. subst tracker.
    unfold write_results, write_file. rewrite Ha.
    destruct (available summary), (available feedback),
      (available response); simpl; by simplify_map_eq.
  - intros name Hn. unfold write_results, write_file.
    destruct (available summary), (available feedback), (available response),
      (has_entries tracker); simpl in *;
      rewrite ?lookup_insert_ne; try done;
      intros <-; apply Hn;
      repeat first [by apply list_elem_of_here | apply list_elem_of_further].
Qed.

Lemma write_results_files_witness :
  let out :=
    write_results ∅ scenario_A (Some (pystr "Used tool X")) None
      (Some (pystr "CREATE TABLE foo(id INT);"))
      (Some (mkTracker [pystr "entry"])) in
  (Some (pystr "Used tool X") = Some (pystr "Used tool X")
   ∧ pystr "Used tool X" ≠ []
   ∧ out.1 !! "summary.md" = Some (heading_summary ++ pystr "Used tool X"))
  ∧ (Some (pystr "CREATE TABLE foo(id INT);")
     = Some (pystr "CREATE TABLE foo(id INT);")
     ∧ pystr "CREATE TABLE foo(id INT);" ≠ []
     ∧ out.1 !! "response.txt" = Some (pystr "CREATE TABLE foo(id INT);"))
  ∧ (Some (mkTracker [pystr "entry"]) = Some (mkTracker [pystr "entry"])
     ∧ full_conversation (mkTracker [pystr "entry"]) ≠ []
     ∧ out.1 !! "transcript.md"
       = Some (heading_transcript ++ get_transcript (mkTracker [pystr "entry"])))
  ∧ out.1 !! "output.txt" = Some scenario_A
  ∧ ¬ ("feedback.md" ∈ out.2) ∧ out.1 !! "feedback.md" = None.
Proof.
  intros out. subst out.
  destruct (write_results_files ∅ scenario_A (Some (pystr "Used tool X")) None
              (Some (pystr "CREATE TABLE foo(id INT);"))
              (Some (mkTracker [pystr "entry"])))
    as (Hout & _ & _ & Hsum & Hfb & _ & _ & Hre & _ & Htr & Hframe).
  assert (Hno : "feedback.md" ∉
                  (write_results ∅ scenario_A (Some (pystr "Used tool X")) None
                     (Some (pystr "CREATE TABLE foo(id INT);"))
                     (Some (mkTracker [pystr "entry"]))).2).
  { intros Hin. apply Hfb in Hin as (s & [=] & _). }
  split_and!; [reflexivity | done | by apply Hsum | reflexivity | done
              | by apply Hre | reflexivity | done | by apply Htr
              | exact Hout | exact Hno | ].
  rewrite (Hframe _ Hno). apply lookup_empty.
Defined.

(** C8, as stated, fails: a section that was extracted but is empty is not
    written.  The final text [<summary> </summary>] has a summary section,
    the empty string, and [write_results] writes [output.txt] only. *)
Lemma empty_summary_not_written :
  extract_tagged_sections (pystr "<summary> </summary>") = (Some [], None, None)
  ∧ (write_results ∅ (pystr "<summary> </summary>") (Some []) None None
       (Some (mkTracker []))).2 = ["output.txt"]
  ∧ "summary.md" ∉ (write_results ∅ (pystr "<summary> </summary>") (Some [])
                      None None (Some (mkTracker []))).2.
Proof.
  split_and!; [vm_compute; reflexivity | reflexivity |].
  rewrite write_results_written. simpl.
  intros Hin. apply elem_of_cons in Hin as [Hin|Hin]; [done|].
  by apply elem_of_nil in Hin.
Qed.

(** ** The working directory of a session *)



Lemma cwd_after_app (start : path) (l1 l2 : list event) :
  cwd_after start (l1 ++ l2) = cwd_after (cwd_after start l1) l2.
Proof. apply foldl_app. Qed.








(** Outside these paths: when the wait for the engine is cut short by an
    exception that is not an [Exception], nothing restores the working
    directory and no cleanup is attempted by these lines. *)
Lemma main_async_interrupted (s : session) (temp_dir : path) (p : process) :
  interrupted s = true →
  main_async s temp_dir p
  = (mkProcess temp_dir (trees p) (results p), [Chdir temp_dir]).
Proof. intros Hi. unfold main_async. by rewrite Hi. Qed.

(** A copy that fails because the old [out] cannot be removed: the removal
    of the old copy is attempted in the original directory, and the handler
    goes back to that directory once more before it removes the
    workspace. *)
Example main_async_failed_copy :
  let s := mkSession false false answered_session false None
             (pystr "/home/u/results") in
  let p := mkProcess (pystr "/home/u")
             {[tmp := 0; pystr "/home/u/results/out" := 1]} ∅ in
  (main_async s tmp p).2
  = [Chdir tmp; Chdir (pystr "/home/u"); WriteResults;
     Rmtree (pystr "/home/u/results/out") false;
     Chdir (pystr "/home/u"); Rmtree tmp false;
     PrintError PermissionError; Exit 1]
  ∧ cwd (main_async s tmp p).1 = pystr "/home/u"
  ∧ trees (main_async s tmp p).1 = {[pystr "/home/u/results/out" := 0]}.
Proof. vm_compute. split_and!; reflexivity. Qed.

(** A session that succeeds: the workspace is copied to [out], then
    removed. *)
Example main_async_success :
  let s := mkSession false false answered_session false None
             (pystr "/home/u/results") in
  let p := mkProcess (pystr "/home/u") {[tmp := 0]} ∅ in
  (main_async s tmp p).2
  = [Chdir tmp; Chdir (pystr "/home/u"); WriteResults; CopyTree tmp;
     Rmtree tmp false; Exit 0]
  ∧ cwd (main_async s tmp p).1 = pystr "/home/u"
  ∧ trees (main_async s tmp p).1 = {[pystr "/home/u/results/out" := 0]}.
Proof. vm_compute. split_and!; reflexivity. Qed.

(** * Further properties of the code *)

(** ** The preview *)






(** ** Copying the working directory *)



(** ** More on cleaning up *)

Section CleanupBounds.
  Context (p : path) (retries : Z) (delay : Q).

Lemma cleanup_attempts_sleeps (n a : nat) (fs : gmap (list N) nat) :
  ∃ k, sleeps (cleanup_attempts p retries delay (Z.of_nat <$> seq a n) fs).2
       = replicate k delay
       ∧ (k = 0 ∨ (Z.of_nat (a + k) ≤ retries - 1)%Z).
Proof.
  revert a fs. induction n as [|n IH]; intros a fs.
  { exists 0. by split; [|left]. }
  change (Z.of_nat <$> seq a (S n))
    with (Z.of_nat a :: (Z.of_nat <$> seq (S a) n)).
  rewrite cleanup_attempts_cons.
  destruct (fs !! p) as [[|b]|].
  - exists 0. by split; [|left].
  - destruct (Z.of_nat a <? retries - 1)%Z eqn:Ha.
    + destruct (IH (S a) (<[p:=b]> fs)) as (k & Hk & Hb).
      destruct (cleanup_attempts p retries delay _ (<[p:=b]> fs))
        as [[r fs'] log]. simpl in *.
      exists (S k). split; [by rewrite Hk|]. right. lia.
    + exists 0. by split; [|left].
  - destruct (Z.of_nat a <? retries - 1)%Z eqn:Ha.
    + destruct (IH (S a) fs) as (k & Hk & Hb).
      destruct (cleanup_attempts p retries delay _ fs)
        as [[r fs'] log]. simpl in *.
      exists (S k). split; [by rewrite Hk|]. right. lia.
    + exists 0. by split; [|left].
Qed.

End CleanupBounds.

(** X4. Whatever the state of the directory, [cleanup_directory] sleeps
    the configured delay each time, at most [retries - 1] times: it never
    sleeps after its last attempt. *)
Theorem cleanup_directory_sleeps_bounded (p : path) (retries : Z) (delay : Q)
    (fs : gmap (list N) nat) :
  ∃ k, sleeps (cleanup_directory p retries delay fs).2 = replicate k delay
       ∧ (Z.of_nat k ≤ Z.max 0 (retries - 1))%Z.
Proof.
  unfold cleanup_directory, range.
  destruct (cleanup_attempts_sleeps p retries delay (Z.to_nat retries) 0 fs)
    as (k & Hk & Hb).
  exists k. split; [done|]. lia.
Qed.

(** X5. [cleanup_directory] returns [True] exactly when the directory
    exists and its removal fails fewer times than there are attempts. *)
Theorem cleanup_directory_true_iff (p : path) (retries : Z) (delay : Q)
    (fs : gmap (list N) nat) :
  (cleanup_directory p retries delay fs).1.1 = Ok true
  ↔ ∃ busy, fs !! p = Some busy ∧ (Z.of_nat busy < retries)%Z.
Proof.
  split.
  - intros Hr. destruct (decide (retries ≤ 0)%Z) as [Hz|Hpos].
    { by rewrite cleanup_directory_no_attempts in Hr. }
    unfold cleanup_directory, range in Hr.
    destruct (Z.to_nat retries) as [|n] eqn:Hn; [lia|].
    pose proof (cleanup_attempts_give_up p retries delay n 0 fs) as Hg.
    destruct (fs !! p) as [busy|]; [|by rewrite Hg in Hr by lia].
    exists busy. split; [done|].
    destruct (decide (Z.of_nat busy < retries)%Z) as [|Hge]; [done|].
    by rewrite Hg in Hr by lia.
  - intros (busy & Hp & Hlt). unfold cleanup_directory, range.
    by rewrite (cleanup_attempts_succeed p retries delay busy _ 0 fs Hp)
      by lia.
Qed.

Lemma cleanup_directory_true_iff_witness :
  (∃ busy, ({[tmp := 2]} : gmap (list N) nat) !! tmp = Some busy
           ∧ (Z.of_nat busy < 3)%Z)
  ∧ (cleanup_directory tmp 3 1 {[tmp := 2]}).1.1 = Ok true.
Proof.
  assert (H : ∃ busy, ({[tmp := 2]} : gmap (list N) nat) !! tmp = Some busy
                      ∧ (Z.of_nat busy < 3)%Z).
  { exists 2. split; [apply lookup_singleton_eq | lia]. }
  split; [exact H|].
  apply (proj2 (cleanup_directory_true_iff tmp 3 1 {[tmp := 2]}) H).
Defined.

(** ** More on the transcript *)

(** X6. The recorder returns exactly on the messages whose public
    attributes raise nothing but [AttributeError] when read, and then it
    appends one entry and keeps the earlier ones: the header with the
    ordinal and the class, the lines of the attributes in [dir()] order
    (an error note for each attribute that raised), the footer. *)
Theorem add_message_to_transcript_iff (self self' : ConversationTracker)
    (n : nat) (m : object) :
  add_message_to_transcript self n m = Ok self'
  ↔ recordable m = true
    ∧ full_conversation self' = full_conversation self ++ [entry_of n m].
Proof.
  unfold add_message_to_transcript. split.
  - destruct (render_entry n m) as [e|] eqn:He; simpl; [|done].
    apply render_entry_Ok in He as [Hm ->]. by intros [= <-].
  - intros [Hm Hs]. rewrite render_entry_recordable by done. simpl.
    destruct self' as [entries]. simpl in Hs. by rewrite Hs.
Qed.

Lemma add_message_to_transcript_iff_witness :
  (recordable (ResultMessage (PyStr (pystr "done"))) = true
   ∧ full_conversation
       (mkTracker [pystr "first"; entry_of 2 (ResultMessage (PyStr (pystr "done")))])
     = full_conversation (mkTracker [pystr "first"])
       ++ [entry_of 2 (ResultMessage (PyStr (pystr "done")))])
  ∧ add_message_to_transcript (mkTracker [pystr "first"]) 2
      (ResultMessage (PyStr (pystr "done")))
    = Ok (mkTracker [pystr "first";
                     entry_of 2 (ResultMessage (PyStr (pystr "done")))]).
Proof.
  assert (H : recordable (ResultMessage (PyStr (pystr "done"))) = true
   ∧ full_conversation
       (mkTracker [pystr "first"; entry_of 2 (ResultMessage (PyStr (pystr "done")))])
     = full_conversation (mkTracker [pystr "first"])
       ++ [entry_of 2 (ResultMessage (PyStr (pystr "done")))]).
  { split; [vm_compute; reflexivity | reflexivity]. }
  split; [exact H|].
  apply (proj2 (add_message_to_transcript_iff _ _ _ _) H).
Defined.

(** X7. A transcript that [generate_with_sdk] returns holds one entry per
    message of the stream, in arrival order and numbered from 1, and
    [get_transcript] is their concatenation. *)
Theorem returned_transcript_in_order (use_mcp mcp_server_found : bool)
    (engine : stream) (text : str) (tr : ConversationTracker) :
  generate_with_sdk use_mcp mcp_server_found engine = Ok (text, tr) →
  full_conversation tr
  = zip_with entry_of (seq 1 (length (messages engine))) (messages engine)
  ∧ length (full_conversation tr) = length (messages engine)
  ∧ get_transcript tr
    = concat (zip_with entry_of (seq 1 (length (messages engine)))
                (messages engine)).
Proof.
  intros Hg. apply generate_with_sdk_transcript in Hg.
  unfold get_transcript. rewrite Hg. split_and!; [done| |done].
  rewrite length_zip_with, length_seq. lia.
Qed.

Lemma returned_transcript_in_order_witness :
  generate_with_sdk false false answered_session
  = Ok (pystr "done",
        mkTracker (zip_with entry_of (seq 1 2) (messages answered_session)))
  ∧ length (full_conversation
              (mkTracker (zip_with entry_of (seq 1 2)
                            (messages answered_session))))
    = length (messages answered_session).
Proof.
  assert (H : generate_with_sdk false false answered_session
    = Ok (pystr "done",
          mkTracker (zip_with entry_of (seq 1 2) (messages answered_session))))
    by (vm_compute; reflexivity).
  split; [exact H|].
  apply (returned_transcript_in_order _ _ _ _ _ H).
Defined.

(** ** More on the final text *)

Lemma adopted_result_tidy (m : object) (r : str) :
  adopted_result m = Some r → tidy r.
Proof.
  unfold adopted_result. destruct (truthy_result m) as [v|]; [|done].
  destruct (nonempty (strip (py_str v))) eqn:Hn; [|done]. intros [= <-].
  by apply strip_tidy.
Qed.

Lemma final_text_tidy (msgs : list object) : tidy (final_text msgs).
Proof.
  unfold final_text.
  destruct (last (omap adopted_result msgs)) as [r|] eqn:Hl.
  - apply last_Some_elem_of, list_elem_of_omap in Hl as (m & _ & Hm).
    by eapply adopted_result_tidy.
  - pose proof (fragments_tidy msgs) as Hf.
    destruct (msgs ≫= fragments) as [|f fs].
    + split_and!; [done|..]; intros c; vm_compute; by intros [= <-].
    + rewrite strip_join_lines by done. by apply join_lines_tidy.
Qed.

Lemma generate_with_sdk_Ok_text (use_mcp mcp_server_found : bool)
    (engine : stream) (text : str) (tr : ConversationTracker) :
  generate_with_sdk use_mcp mcp_server_found engine = Ok (text, tr) →
  text = final_text (messages engine).
Proof.
  unfold generate_with_sdk, session_state.
  destruct (use_mcp && negb mcp_server_found); [done|].
  destruct (receive_loop initial_state (messages engine) (failure engine))
    as [st [e|]] eqn:Hl; [done|].
  intros [= <- <-]. apply receive_loop_None in Hl as (_ & Hg & Hf).
  by apply choose_final_text.
Qed.

(** X8. A text that [generate_with_sdk] returns is never empty and has no
    whitespace at either end: stripping it changes nothing. *)
Theorem returned_text_is_tidy (use_mcp mcp_server_found : bool)
    (engine : stream) (text : str) (tr : ConversationTracker) :
  generate_with_sdk use_mcp mcp_server_found engine = Ok (text, tr) →
  text ≠ [] ∧ strip text = text.
Proof.
  intros ->%generate_with_sdk_Ok_text.
  destruct (final_text_tidy (messages engine)) as (Hne & Hh & Hl).
  split; [done|].
  rewrite <-(app_nil_r (final_text (messages engine))) at 1.
  by apply (strip_unique [] _ []).
Qed.

Lemma returned_text_is_tidy_witness :
  generate_with_sdk false false answered_session
  = Ok (pystr "done",
        mkTracker (zip_with entry_of (seq 1 2) (messages answered_session)))
  ∧ pystr "done" ≠ [] ∧ strip (pystr "done") = pystr "done".
Proof.
  assert (H : generate_with_sdk false false answered_session
    = Ok (pystr "done",
          mkTracker (zip_with entry_of (seq 1 2) (messages answered_session))))
    by (vm_compute; reflexivity).
  split; [exact H|].
  apply (returned_text_is_tidy _ _ _ _ _ H).
Defined.

(** ** Exceptions of a session *)

Lemma plain_receive_loop_failure (st : loop_state) (msgs : list object)
    (failure : option exn) :
  forallb plain_message msgs = true →
  ∃ st', receive_loop st msgs failure = (st', failure).
Proof.
  revert st. induction msgs as [|m msgs IH]; intros st; simpl; [by eexists|].
  intros [Hm Hmsgs]%andb_prop.
  unfold loop_body, add_message_to_transcript.
  rewrite render_entry_recordable
    by (apply readable_recordable; by apply andb_prop in Hm as [? _]).
  simpl.
  destruct (plain_inspect_message (generated_content st)
              (final_result_content st) m Hm) as [[g f] ->].
  by apply IH.
Qed.

(** X9. When the tool servers are asked for and the launcher is not
    found, [generate_with_sdk] raises [ValueError] whatever the stream
    holds.  Otherwise an exception that the stream raises after messages
    that read without raising is re-raised as it is. *)
Theorem generate_with_sdk_raises (use_mcp mcp_server_found : bool)
    (engine : stream) :
  (use_mcp = true → mcp_server_found = false →
   ∃ e, generate_with_sdk use_mcp mcp_server_found engine = Raise e
        ∧ exn_cls e = ValueError)
  ∧ (∀ e, (use_mcp = true → mcp_server_found = true) →
          forallb plain_message (messages engine) = true →
          failure engine = Some e →
          generate_with_sdk use_mcp mcp_server_found engine = Raise e).
Proof.
  split.
  - intros -> ->. by eexists.
  - intros e Hcfg Hplain Hfail. unfold generate_with_sdk, session_state.
    replace (use_mcp && negb mcp_server_found) with false
      by (destruct use_mcp; [by rewrite Hcfg|done]).
    destruct (plain_receive_loop_failure initial_state _ (failure engine)
                Hplain) as [st' ->].
    by rewrite Hfail.
Qed.

Lemma generate_with_sdk_raises_witness :
  (∃ e, generate_with_sdk true false answered_session = Raise e
        ∧ exn_cls e = ValueError)
  ∧ generate_with_sdk true true
      (mkStream (messages answered_session)
         (Some (mkExn OtherError (pystr "connection lost"))))
    = Raise (mkExn OtherError (pystr "connection lost")).
Proof.
  split.
  - apply (proj1 (generate_with_sdk_raises true false answered_session));
      reflexivity.
  - apply (proj2 (generate_with_sdk_raises true true
                    (mkStream (messages answered_session)
                       (Some (mkExn OtherError (pystr "connection lost"))))));
      [done | vm_compute; reflexivity | reflexivity].
Defined.

(** ** More on the sections *)

Lemma occurs_at_within (p s b : str) (k i : nat) :
  occurs_at p s i → k ≤ i → occurs_at p (s ++ b) k → occurs_at p s k.
Proof.
  intros (a & e & Hs & Ha) Hk (a' & d & Heq & Ha').
  exists a', (drop (k + length p) s). split; [|done].
  assert (Hlen : k + length p ≤ length s).
  { rewrite Hs, !length_app. lia. }
  apply (f_equal (take (k + length p))) in Heq.
  rewrite take_app_le in Heq by done.
  rewrite (app_assoc a'), take_app_length' in Heq by (rewrite length_app; lia).
  rewrite <-(take_drop (k + length p) s) at 1.
  by rewrite Heq, <-app_assoc.
Qed.

Lemma first_occurrence_app (p s b : str) (i : nat) :
  first_occurrence p s i → first_occurrence p (s ++ b) i.
Proof.
  intros [Ho Hfirst]. split.
  - destruct Ho as (a & e & -> & Ha). exists a, (e ++ b).
    by rewrite <-!app_assoc.
  - intros k Hk Hocc. apply (Hfirst k Hk).
    eapply occurs_at_within; [exact Ho | lia | exact Hocc].
Qed.

(** X11. A section found in a text is not changed by what is appended to
    the text: for every name, when the section is there in [text], the
    same section is returned for [text ++ more]. *)
Theorem extract_section_stable (name text more r : str) :
  extract_section name text = Some r →
  extract_section name (text ++ more) = Some r.
Proof.
  unfold extract_section.
  destruct (re_search (open_tag name) (close_tag name) text) as [g|] eqn:Hs;
    [|done].
  intros [= <-].
  apply re_search_Some in Hs as (pre & post & -> & Ho & Hc).
  apply (first_occurrence_app _ _ more) in Ho, Hc.
  rewrite <-!app_assoc in *.
  by rewrite re_search_complete.
Qed.

Lemma extract_section_stable_witness :
  extract_section (pystr "summary") (pystr "<summary> a </summary>")
  = Some (pystr "a")
  ∧ extract_section (pystr "summary")
      (pystr "<summary> a </summary>" ++ pystr "<summary>b</summary>")
    = Some (pystr "a").
Proof.
  assert (H : extract_section (pystr "summary") (pystr "<summary> a </summary>")
              = Some (pystr "a")) by (vm_compute; reflexivity).
  split; [exact H|].
  apply (extract_section_stable _ _ (pystr "<summary>b</summary>") _ H).
Defined.

(** ** More on the result files *)

Lemma write_results_output (results_dir : gmap string (list N))
    (content : str) (summary feedback response : option str)
    (tracker : option ConversationTracker) :
  (write_results results_dir content summary feedback response tracker).1
    !! "output.txt" = Some content.
Proof.
  unfold write_results, write_file.
  destruct (available summary), (available feedback), (available response),
    (has_entries tracker); simpl; by simplify_map_eq.
Qed.

Lemma write_results_transcript (results_dir : gmap string (list N))
    (content : str) (summary feedback response : option str)
    (tr : ConversationTracker) :
  (write_results results_dir content summary feedback response (Some tr)).1
    !! "transcript.md"
  = match full_conversation tr with
    | [] => results_dir !! "transcript.md"
    | _ => Some (heading_transcript ++ get_transcript tr)
    end.
Proof.
  unfold write_results, write_file. simpl.
  destruct (available summary), (available feedback), (available response),
    (full_conversation tr); simpl; by simplify_map_eq.
Qed.

Lemma write_results_section (results_dir : gmap string (list N))
    (content : str) (summary feedback response : option str)
    (tracker : option ConversationTracker) :
  (available summary = true →
   (write_results results_dir content summary feedback response tracker).1
     !! "summary.md" = Some (heading_summary ++ default [] summary))
  ∧ (available feedback = true →
     (write_results results_dir content summary feedback response tracker).1
       !! "feedback.md" = Some (heading_feedback ++ default [] feedback))
  ∧ (available response = true →
     (write_results results_dir content summary feedback response tracker).1
       !! "response.txt" = Some (default [] response)).
Proof.
  unfold write_results, write_file.
  split_and!; intros ->;
    destruct (available summary), (available feedback), (available response),
      (has_entries tracker); simpl; by simplify_map_eq.
Qed.

(** X12. Writing the same results a second time changes nothing: every
    file is opened for writing anew and gets the same contents. *)
Theorem write_results_again (results_dir : gmap string (list N))
    (content : str) (summary feedback response : option str)
    (tracker : option ConversationTracker) :
  (write_results
     (write_results results_dir content summary feedback response tracker).1
     content summary feedback response tracker).1
  = (write_results results_dir content summary feedback response tracker).1.
Proof.
  pose proof (write_results_output results_dir content summary feedback
                response tracker) as Hout.
  destruct (write_results_section results_dir content summary feedback
              response tracker) as (Hsum & Hfb & Hre).
  assert (Htr : has_entries tracker = true →
    (write_results results_dir content summary feedback response tracker).1
      !! "transcript.md"
    = Some (heading_transcript
            ++ match tracker with Some t => get_transcript t | None => [] end)).
  { destruct tracker as [tr|]; [|done]. rewrite write_results_transcript.
    simpl. by destruct (full_conversation tr). }
  generalize dependent
    (write_results results_dir content summary feedback response tracker).1.
  intros d Hout Hsum Hfb Hre Htr. unfold write_results, write_file.
  cbn [fst snd]. rewrite (insert_id d "output.txt" content Hout).
  destruct (available summary); cbn [fst snd];
    [rewrite (insert_id d "summary.md" _ (Hsum eq_refl))|];
    (destruct (available feedback); cbn [fst snd];
     [rewrite (insert_id d "feedback.md" _ (Hfb eq_refl))|]);
    (destruct (available response); cbn [fst snd];
     [rewrite (insert_id d "response.txt" _ (Hre eq_refl))|]);
    (destruct (has_entries tracker); cbn [fst snd];
     [rewrite (insert_id d "transcript.md" _ (Htr eq_refl))|]); done.
Qed.

(** ** More on a session *)

Lemma on_error_outcome (original_cwd temp_dir : path) (e : exn) (p : process)
    (log : list event) :
  let run := on_error original_cwd temp_dir e p log in
  last run.2 = Some (Exit 1) ∧ PrintError e ∈ run.2
  ∧ results run.1 = results p
  ∧ trees run.1
    = (cleanup_directory temp_dir default_retries default_delay (trees p)).1.2.
Proof.
  unfold on_error.
  destruct (cleanup_directory temp_dir default_retries default_delay (trees p))
    as [[r fs] cleanup_log]. simpl.
  split_and!; [|  |done..].
  - by rewrite last_app, last_cons, last_app.
  - apply elem_of_app. right. apply elem_of_cons. right.
    apply elem_of_app. right. apply list_elem_of_here.
Qed.

(** The copy leaves every directory but [out] as it is. *)
Lemma copy_output_directory_frame (src_dir results_dir q : path)
    (fs : gmap (list N) nat) :
  q ≠ path_join results_dir (pystr "out") →
  (copy_output_directory src_dir results_dir fs).1.2 !! q = fs !! q.
Proof.
  unfold copy_output_directory.
  generalize (path_join results_dir (pystr "out")). intros out_dir Hq.
  unfold rmtree, copytree.
  destruct (fs !! out_dir) as [[|busy]|] eqn:Hout; simpl.
  - destruct (delete out_dir fs !! src_dir);
      [|simpl; by rewrite lookup_delete_ne].
    destruct (delete out_dir fs !! out_dir); simpl;
      [|rewrite lookup_insert_ne by done]; by rewrite lookup_delete_ne.
  - by rewrite lookup_insert_ne.
  - destruct (fs !! src_dir); [|done]. rewrite Hout. simpl.
    by rewrite lookup_insert_ne.
Qed.


(** The directories after a session that is not interrupted: the copy, if
    it is reached, then the cleanup. *)
Lemma main_async_trees (s : session) (temp_dir : path) (p : process) :
  interrupted s = false →
  ∃ fs, trees (main_async s temp_dir p).1
        = (cleanup_directory temp_dir default_retries default_delay fs).1.2
        ∧ ∀ q, q ≠ path_join (results_dir s) (pystr "out") →
               fs !! q = trees p !! q.
Proof.
  intros Hi. unfold main_async. rewrite Hi.
  destruct (generate_with_sdk (use_mcp s) (mcp_server_found s) (engine s))
    as [[text tr]|e].
  2:{ match goal with |- context [on_error ?o ?t ?e ?q ?l] =>
        destruct (on_error_outcome o t e q l) as (_ & _ & _ & H) end.
      by exists (trees p). }
  destruct (extract_tagged_sections text) as [[summary feedback] response].
  destruct (write_error s) as [e|].
  { match goal with |- context [on_error ?o ?t ?e ?q ?l] =>
      destruct (on_error_outcome o t e q l) as (_ & _ & _ & H) end.
    by exists (trees p). }
  cbn [cwd trees results].
  pose proof (copy_output_directory_frame temp_dir (results_dir s)) as Hframe.
  specialize (λ q, Hframe q (trees p)).
  destruct (copy_output_directory temp_dir (results_dir s) (trees p))
    as [[[out_dir|e] fs] copy_log]; cbn [fst snd cwd trees results] in *.
  - exists fs. split; [|done].
    by destruct (cleanup_directory temp_dir default_retries default_delay fs)
      as [[r fs'] cleanup_log].
  - match goal with |- context [on_error ?o ?t ?e ?q ?l] =>
      destruct (on_error_outcome o t e q l) as (_ & _ & _ & H) end.
    by exists fs.
Qed.

(** X14. On every path out of a session on which these lines return or an
    [Exception] is raised, the temporary directory is gone when its removal
    fails fewer than three times.  The temporary directory is not the
    [out] of the results directory. *)
Theorem main_async_removes_workspace (s : session) (temp_dir : path)
    (p : process) (busy : nat) :
  interrupted s = false →
  temp_dir ≠ path_join (results_dir s) (pystr "out") →
  trees p !! temp_dir = Some busy → busy < 3 →
  trees (main_async s temp_dir p).1 !! temp_dir = None.
Proof.
  intros Hi Hne Hp Hb.
  destruct (main_async_trees s temp_dir p Hi) as (fs & -> & Hfs).
  rewrite <- (Hfs _ Hne) in Hp.
  unfold cleanup_directory, range, default_retries.
  rewrite (cleanup_attempts_succeed temp_dir 3 default_delay busy _ 0
             fs Hp) by (simpl; lia).
  apply lookup_delete_eq.
Qed.

Lemma main_async_removes_workspace_witness :
  let s := mkSession false false answered_session false None
             (pystr "/home/u/results") in
  let p := mkProcess (pystr "/home/u") {[tmp := 2; pystr "/home/u" := 0]} ∅ in
  interrupted s = false
  ∧ tmp ≠ path_join (results_dir s) (pystr "out")
  ∧ trees p !! tmp = Some 2 ∧ 2 < 3
  ∧ trees (main_async s tmp p).1 !! tmp = None
  ∧ trees (main_async s tmp p).1
      !! path_join (pystr "/home/u/results") (pystr "out") = Some 0.
Proof.
  intros s p.
  assert (Hne : tmp ≠ path_join (results_dir s) (pystr "out"))
    by (vm_compute; congruence).
  assert (Hp : trees p !! tmp = Some 2) by apply lookup_insert_eq.
  split_and!; [reflexivity | exact Hne | exact Hp | lia
              | exact (main_async_removes_workspace s tmp p 2 eq_refl Hne Hp
                         ltac:(lia))
              | vm_compute; reflexivity].
Defined.

(** ** What a section never holds *)

Lemma contains_strip (p s : str) : contains p (strip s) → contains p s.
Proof.
  destruct (strip_trimmed s) as (l & t & Hs & _).
  intros (i & a & b & Hr & _). rewrite Hs, Hr.
  exists (length (l ++ a)), (l ++ a), (b ++ t). by rewrite <-!app_assoc.
Qed.

(** X15. A section that is returned never holds the closing delimiter of
    its own tag: the match stops at the first one. *)
Theorem extract_section_closed (name text r : str) :
  extract_section name text = Some r → ¬ contains (close_tag name) r.
Proof.
  unfold extract_section.
  destruct (re_search (open_tag name) (close_tag name) text) as [g|] eqn:Hs;
    [|done].
  intros [= <-] Hin%contains_strip.
  apply re_search_Some in Hs as (pre & post & _ & _ & _ & Hfirst).
  destruct Hin as (k & a & b & Hg & Hk).
  apply (Hfirst k).
  - rewrite Hg, !length_app. pose proof (length_app (pystr "</") name).
    assert (0 < length (close_tag name)) by (unfold close_tag; simpl; lia).
    lia.
  - exists a, (b ++ close_tag name ++ post). split; [|done].
    rewrite Hg. by rewrite <-!app_assoc.
Qed.

Lemma extract_section_closed_witness :
  extract_section (pystr "response")
    (pystr "<response>a</response> b </response>") = Some (pystr "a")
  ∧ ¬ contains (close_tag (pystr "response")) (pystr "a").
Proof.
  assert (H : extract_section (pystr "response")
                (pystr "<response>a</response> b </response>")
              = Some (pystr "a")) by (vm_compute; reflexivity).
  split; [exact H|]. apply (extract_section_closed _ _ _ H).
Defined.
